(** * gochal2: a NaCl-box secured echo channel (main.go)

    Shallow embedding of [secureReader], [secureWriter],
    [secureReadWriter], [Dial], [Serve] and [handleConnection] of
    main.go, together with the parts of the Go standard library ([io],
    [crypto/rand], [net]) and of golang.org/x/crypto/nacl/box that the
    program calls.

    Conventions.
    - A Go byte slice is a [list byte]; a call that fills a caller's
      buffer takes the buffer's contents and returns the new contents.
    - A Go [error] value is an [option error], [None] being [nil].
    - Stateful collaborators (the transport, the random source, the
      listener) are explicit states that every call takes and returns. *)

From Stdlib Require Import String Strings.Byte.
From Stdlib Require Import List Arith Lia Bool ZArith Zpow_facts.
Import ListNotations.

Local Open Scope list_scope.
Local Open Scope nat_scope.

(* ================================================================= *)
(** ** Errors and formatted output *)

(** [fmt.Errorf] and [fmt.Printf] are kept symbolic: the format string and
    its single operand. *)
Inductive error : Type :=
| EOF                                   (* io.EOF *)
| ErrUnexpectedEOF                      (* io.ErrUnexpectedEOF *)
| ErrShortBuffer                        (* io.ErrShortBuffer *)
| ErrClosed                             (* use of a closed connection *)
| ErrExternal (code : nat)              (* any other error of a collaborator *)
| Errorf (format : string) (arg : fmtarg)
with fmtarg : Type :=
| ArgNone
| ArgInt (n : nat)
| ArgErr (e : error).

Inductive printed : Type :=
| Printf (format : string) (arg : fmtarg).

(** [err == io.EOF] *)
Definition is_EOF (err : option error) : bool :=
  match err with
  | Some EOF => true
  | _ => false
  end.

(** [err == nil] *)
Definition is_nil (err : option error) : bool :=
  match err with
  | None => true
  | Some _ => false
  end.

(** The built-in [copy(dst, src)]: the number of bytes copied and the new
    contents of [dst]. *)
Definition copy (dst src : list byte) : nat * list byte :=
  let k := Nat.min (length dst) (length src) in
  (k, firstn k src ++ skipn k dst).

(** [make([]byte, n)] and a zeroed [[n]byte] array. *)
Definition make (n : nat) : list byte := repeat x00 n.

(** The slice expression [buf[:n]] of a slice whose capacity is its length;
    [None] is the run-time panic "slice bounds out of range". *)
Definition slice_to (buf : list byte) (n : nat) : option (list byte) :=
  if n <=? length buf then Some (firstn n buf) else None.

(* ================================================================= *)
(** ** package io: the Reader, Writer and Closer interfaces *)

Module io.

(** [Read(p) (n, err)]: the count, the error, the new contents of [p] and
    the reader's next state. *)
Class Reader (T : Type) : Type :=
  Read : T -> list byte -> nat * option error * list byte * T.

(** [Write(p) (n, err)]. *)
Class Writer (T : Type) : Type :=
  Write : T -> list byte -> nat * option error * T.

(** [Close() error]. *)
Class Closer (T : Type) : Type :=
  Close : T -> option error * T.

(** The loop of [io.ReadAtLeast]:
    [for n < min && err == nil { nn, err = r.Read(buf[n:]); n += nn }].
    A reader that keeps the contract of io.Reader (a call with a non-empty
    buffer delivers at least one byte or an error) leaves the loop within
    [min] rounds, which is the fuel [ReadAtLeast] gives it. *)
Fixpoint ReadAtLeast_loop {T} `{Reader T} (fuel : nat) (r : T)
    (buf : list byte) (min n : nat) (err : option error)
    : nat * option error * list byte * T :=
  match fuel with
  | 0 => (n, err, buf, r)
  | S fuel' =>
      if (n <? min) && is_nil err then
        let '(nn, err', tl, r') := Read r (skipn n buf) in
        ReadAtLeast_loop fuel' r' (firstn n buf ++ tl) min (n + nn) err'
      else (n, err, buf, r)
  end.

Definition ReadAtLeast {T} `{Reader T} (r : T) (buf : list byte) (min : nat)
    : nat * option error * list byte * T :=
  if length buf <? min then (0, Some ErrShortBuffer, buf, r)
  else
    let '(n, err, buf', r') := ReadAtLeast_loop min r buf min 0 None in
    let err' :=
      if min <=? n then None
      else if (0 <? n) && is_EOF err then Some ErrUnexpectedEOF
      else err in
    (n, err', buf', r').

(** [io.ReadFull(r, buf)] is [ReadAtLeast(r, buf, len(buf))]. *)
Definition ReadFull {T} `{Reader T} (r : T) (buf : list byte)
    : nat * option error * list byte * T :=
  ReadAtLeast r buf (length buf).

End io.

(* ================================================================= *)
(** ** Scripted collaborators *)

(** A byte source is the script of what it will deliver: each chunk is the
    data one [Read] call can obtain at most, with the error that call
    returns once the chunk's data is used up.  An empty chunk without an
    error delivers nothing and is passed over (the call blocks until there
    is data); the end of the script is the end of the stream.  An io.Pipe
    is the list of the chunks written to it; a bytes.Reader over [b] is the
    single chunk [b]. *)
Definition chunk : Type := list byte * option error.
Definition Source : Type := list chunk.

Fixpoint Source_Read (r : Source) (p : list byte)
    : nat * option error * list byte * Source :=
  match r with
  | [] => (0, Some EOF, p, [])
  | (d, e) :: r' =>
      match d, e with
      | [], None => Source_Read r' p
      | _, _ =>
          if length p =? 0 then (0, None, p, r)
          else if length d <=? length p
          then (length d, e, d ++ skipn (length d) p, r')
          else (length p, None, firstn (length p) d,
                (skipn (length p) d, e) :: r')
      end
  end.

#[export] Instance Source_Reader : io.Reader Source := Source_Read.

(** A stream of plain data chunks, as an io.Pipe presents the writes made to
    it. *)
Definition pipe (writes : list (list byte)) : Source :=
  map (fun d => (d, None)) writes.

(** A byte sink records what each [Write] call accepted.  Its script says how
    the coming calls end: [Accept] takes the whole buffer; [Refuse k e]
    takes at most [k] bytes and returns the error [e] (a short write
    comes with an error, as io.Writer requires).  After the script, every
    call is accepted. *)
Inductive wresp : Type :=
| Accept
| Refuse (k : nat) (e : error).

Record Sink : Type := mkSink {
  accepted : list (list byte);
  script : list wresp
}.

Definition Sink_Write (w : Sink) (p : list byte) : nat * option error * Sink :=
  match script w with
  | [] => (length p, None, mkSink (accepted w ++ [p]) [])
  | Accept :: s => (length p, None, mkSink (accepted w ++ [p]) s)
  | Refuse k e :: s =>
      (Nat.min k (length p), Some e, mkSink (accepted w ++ [firstn k p]) s)
  end.

#[export] Instance Sink_Writer : io.Writer Sink := Sink_Write.

(** All the bytes a sink took, in order. *)
Definition wire (w : Sink) : list byte := concat (accepted w).

(** A net.Conn: a source, a sink and whether it was closed. *)
Record Conn : Type := mkConn {
  rd : Source;
  wr : Sink;
  closed : bool
}.

Definition Conn_Read (c : Conn) (p : list byte)
    : nat * option error * list byte * Conn :=
  if closed c then (0, Some ErrClosed, p, c)
  else
    let '(n, err, p', rd') := io.Read (rd c) p in
    (n, err, p', mkConn rd' (wr c) false).

Definition Conn_Write (c : Conn) (p : list byte) : nat * option error * Conn :=
  if closed c then (0, Some ErrClosed, c)
  else
    let '(n, err, wr') := io.Write (wr c) p in
    (n, err, mkConn (rd c) wr' false).

Definition Conn_Close (c : Conn) : option error * Conn :=
  if closed c then (Some ErrClosed, c)
  else (None, mkConn (rd c) (wr c) true).

#[export] Instance Conn_Reader : io.Reader Conn := Conn_Read.
#[export] Instance Conn_Writer : io.Writer Conn := Conn_Write.
#[export] Instance Conn_Closer : io.Closer Conn := Conn_Close.

(* ================================================================= *)
(** ** package crypto/rand *)

Module rand.

(** [rand.Read(b)] is [io.ReadFull(rand.Reader, b)]; the state of
    [rand.Reader] is a [Source]. *)
Definition Read (rnd : Source) (b : list byte)
    : nat * option error * list byte * Source :=
  io.ReadFull rnd b.

End rand.

(* ================================================================= *)
(** ** package golang.org/x/crypto/nacl/box *)

(** A [[32]byte] key and a [[24]byte] nonce, by their contents. *)
Definition key : Type := list byte.

Module box.

(** The primitives of the library, which is not part of this repository.
    - [ScalarBaseMult priv]: the public key of [priv]
      (curve25519.ScalarBaseMult, called by [GenerateKey]);
    - [Precompute peersPublicKey privateKey]: the shared key that Go's
      [Precompute(sharedKey, peersPublicKey, privateKey)] stores in
      [sharedKey];
    - [SealAfterPrecomputation message nonce sharedKey] and
      [OpenAfterPrecomputation box nonce sharedKey]: the Go functions with
      their [out] argument [nil], as every call of main.go has it;
      [None] is Go's [ok == false]. *)
Class Lib : Type := {
  ScalarBaseMult : key -> key;
  Precompute : key -> key -> key;
  SealAfterPrecomputation : list byte -> list byte -> key -> list byte;
  OpenAfterPrecomputation : list byte -> list byte -> key -> option (list byte)
}.

(** [box.Overhead], the length of the authenticator (poly1305.TagSize). *)
Definition Overhead : nat := 16.

(** [GenerateKey(rand) (publicKey, privateKey, err)]: the private key is
    32 bytes of [rand] (io.ReadFull), the public key its
    [ScalarBaseMult]; with an error both keys are [nil]. *)
Definition GenerateKey `{Lib} (rnd : Source)
    : ((key * key) + error) * Source :=
  let '(_, err, privateKey, rnd') := io.ReadFull rnd (make 32) in
  match err with
  | Some e => (inr e, rnd')
  | None => (inl (ScalarBaseMult privateKey, privateKey), rnd')
  end.

(** Modelled from the spec: the key agreement behind [Precompute]
    (Curve25519, in the library).  Section 3: "by the agreement function's
    symmetry, the two endpoints derive the identical key from their
    respective (private, peer-public) pairs"; section 8:
    [derive(privA, pubB) == derive(privB, pubA)] for key pairs
    [(pubA, privA)] and [(pubB, privB)]. *)
Definition agreement_symmetric `{Lib} : Prop :=
  forall privA privB,
    Precompute (ScalarBaseMult privB) privA
    = Precompute (ScalarBaseMult privA) privB.

(** Modelled from the spec: the authenticated encryption behind
    [SealAfterPrecomputation] and [OpenAfterPrecomputation]
    (XSalsa20-Poly1305, in the library).  Section 3: "Ciphertext length =
    plaintext length + fixed authentication-tag overhead (16 bytes)";
    section 8: [decrypt(encrypt(P, k, nonce), k, nonce) == P]. *)
Definition seal_adds_overhead `{Lib} : Prop :=
  forall message nonce sharedKey,
    length (SealAfterPrecomputation message nonce sharedKey)
    = length message + Overhead.

Definition open_inverts_seal `{Lib} : Prop :=
  forall message nonce sharedKey,
    OpenAfterPrecomputation
      (SealAfterPrecomputation message nonce sharedKey) nonce sharedKey
    = Some message.

Definition open_removes_overhead `{Lib} : Prop :=
  forall box nonce sharedKey message,
    OpenAfterPrecomputation box nonce sharedKey = Some message ->
    length box = length message + Overhead.

End box.

(* ================================================================= *)
(** ** main.go *)

Definition noncesz : nat := 24.
Definition keysz : nat := 32.

Section Main.

Context `{box.Lib}.

(** *** secureReader *)

(** The struct's field [r] is a reference to the underlying reader; its
    state is the argument [r] of [secureReader_Read]. *)
Record secureReader : Type := mkSecureReader { sr_key : key }.

Definition secureReader_Read {T} `{io.Reader T}
    (sr : secureReader) (r : T) (p : list byte)
    : nat * option error * list byte * T :=
  if length p =? 0 then (0, None, p, r)
  else
    let nonce := make noncesz in
    let '(n, err, nonce, r) := io.ReadFull r nonce in
    match err with
    | Some e => (n, Some e, p, r)
    | None =>
      if negb (n =? noncesz) then
        (n, Some (Errorf "secureReader.Read: Unexpected nonce length: %d"
                         (ArgInt n)), p, r)
      else
        let encrptd := make (length p + box.Overhead) in
        let '(n, err, encrptd, r) := io.Read r encrptd in
        match err with
        | Some e => (n, Some e, p, r)
        | None =>
          match box.OpenAfterPrecomputation (firstn n encrptd) nonce
                                            (sr_key sr) with
          | None =>
              (n, Some (Errorf "secureReader.Read: Error decrypting data"
                               ArgNone), p, r)
          | Some decrypted =>
              let '(k, p') := copy p decrypted in
              (k, None, p', r)
          end
        end
    end.

(** [NewSecureReader(r, priv, pub)] *)
Definition NewSecureReader (priv pub : key) : secureReader :=
  mkSecureReader (box.Precompute pub priv).

(** *** secureWriter *)

(** The field [w] is a reference to the underlying writer; its state is the
    argument [w] of [secureWriter_Write], and [rnd] is the state of
    [rand.Reader]. *)
Record secureWriter : Type := mkSecureWriter { sw_key : key }.

Definition secureWriter_Write {T} `{io.Writer T}
    (sw : secureWriter) (rnd : Source) (w : T) (p : list byte)
    : nat * option error * Source * T :=
  if length p =? 0 then (0, None, rnd, w)
  else
    let nonce := make noncesz in
    let '(n, err, nonce, rnd) := rand.Read rnd nonce in
    match err with
    | Some e => (0, Some (Errorf "secureWriter.Write: %v" (ArgErr e)), rnd, w)
    | None =>
      if negb (n =? noncesz) then
        (0, Some (Errorf
                    "secureWriter.Write: only generated %d bytes for nouce"
                    (ArgInt n)), rnd, w)
      else
        let '(n, err, w) := io.Write w nonce in
        match err with
        | Some e =>
            (n, Some (Errorf "secureWriter.Write: %v" (ArgErr e)), rnd, w)
        | None =>
          if negb (n =? noncesz) then
            (0, Some (Errorf
                        "secureWriter.Write: only wrote %d bytes for nouce"
                        (ArgInt n)), rnd, w)
          else
            let encrptd :=
              box.SealAfterPrecomputation p nonce (sw_key sw) in
            let '(n, err, w) := io.Write w encrptd in
            let n := if box.Overhead <? n then n - box.Overhead else n in
            (n, err, rnd, w)
        end
    end.

(** [NewSecureWriter(w, priv, pub)] *)
Definition NewSecureWriter (priv pub : key) : secureWriter :=
  mkSecureWriter (box.Precompute pub priv).

(** *** secureReadWriter *)

(** The fields [rwc], [sw.w] and [sr.r] are three references to one
    connection; its state is the argument [rwc] of the methods. *)
Record secureReadWriter : Type := mkSecureReadWriter {
  sw : secureWriter;
  sr : secureReader
}.

(** [NewSecureReadWriter(rwc, priv, pub)] *)
Definition NewSecureReadWriter (priv pub : key) : secureReadWriter :=
  mkSecureReadWriter (NewSecureWriter priv pub) (NewSecureReader priv pub).

Definition secureReadWriter_Read (srw : secureReadWriter) (rwc : Conn)
    (p : list byte) : nat * option error * list byte * Conn :=
  secureReader_Read (sr srw) rwc p.

Definition secureReadWriter_Write (srw : secureReadWriter) (rnd : Source)
    (rwc : Conn) (p : list byte) : nat * option error * Source * Conn :=
  secureWriter_Write (sw srw) rnd rwc p.

Definition secureReadWriter_Close (srw : secureReadWriter) (rwc : Conn)
    : option error * Conn :=
  io.Close rwc.

(** *** Dial *)

(** What a call of [Dial] leaves behind: the two results, the connection
    (when net.Dial opened one) in its final state, the state of
    [rand.Reader] and the lines printed. *)
Record Dialed : Type := mkDialed {
  d_rwc : option secureReadWriter;
  d_err : option error;
  d_conn : option Conn;
  d_rand : Source;
  d_out : list printed
}.

(** The deferred closure of [Dial],
    [func(c net.Conn, e error) { if e != nil { Printf(.., err); c.Close() } }],
    run with the operands [c], [e] bound by the [defer] statement and the
    value [err] has when the function returns. *)
Definition Dial_deferred (c : Conn) (e err : option error)
    (out : list printed) : Conn * list printed :=
  match e with
  | Some _ =>
      let out :=
        out ++ [Printf "Dial: Closing connection because: %v"
                       (match err with Some x => ArgErr x | None => ArgNone end)] in
      let '(_, c) := io.Close c in
      (c, out)
  | None => (c, out)
  end.

(** [net_Dial addr] is the outcome of [net.Dial("tcp", addr)]. *)
Definition Dial (net_Dial : string -> Conn + error) (rnd : Source)
    (addr : string) : Dialed :=
  match net_Dial addr with
  | inr err => mkDialed None (Some err) None rnd []
  | inl conn =>
    (* defer ...(conn, err): err is nil where the operands are evaluated *)
    let e : option error := None in
    let leave (rwc : option secureReadWriter) (result err : option error)
              (conn : Conn) (rnd : Source) : Dialed :=
      let '(conn, out) := Dial_deferred conn e err [] in
      mkDialed rwc result (Some conn) rnd out in
    let srvpub := make keysz in
    let '(n, err, srvpub, conn) := io.Read conn srvpub in
    match err with
    | Some _ => leave None err err conn rnd
    | None =>
      if negb (n =? keysz) then
        leave None
          (Some (Errorf
             "Dial: could only read <%d> bytes of server's public key."
             (ArgInt n))) err conn rnd
      else
        let '(keys, rnd) := box.GenerateKey rnd in
        match keys with
        | inr e => leave None (Some e) (Some e) conn rnd
        | inl (pub, priv) =>
          let '(n, err, conn) := io.Write conn pub in
          match err with
          | Some _ => leave None err err conn rnd
          | None =>
            if negb (n =? keysz) then
              leave None
                (Some (Errorf
                   "Dial: could only write <%d> bytes of client's public key."
                   (ArgInt n))) err conn rnd
            else
              leave (Some (NewSecureReadWriter priv srvpub)) None err
                    conn rnd
          end
        end
    end
  end.

(** *** handleConnection *)

(** What a run of [handleConnection] leaves behind: the connection and
    [rand.Reader] in their final states, the lines printed, the
    secureReadWriter [swr] when one was constructed, and whether the
    goroutine panicked. *)
Record Handled : Type := mkHandled {
  h_conn : Conn;
  h_rand : Source;
  h_out : list printed;
  h_swr : option secureReadWriter;
  h_panic : bool
}.

Definition handleConnection (rnd : Source) (conn : Conn) (pri pub : key)
    : Handled :=
  let '(n, err, conn) := io.Write conn pub in
  match err with
  | Some e =>
      let '(_, conn) := io.Close conn in
      mkHandled conn rnd [Printf "handleConnection: %v\n" (ArgErr e)]
                None false
  | None =>
    if negb (n =? keysz) then
      let '(_, conn) := io.Close conn in
      mkHandled conn rnd
        [Printf
           "handleConnection: could only write <%d> bytes of server's public key.\n"
           (ArgInt n)] None false
    else
      let clipub := make keysz in
      let '(n, err, clipub, conn) := io.Read conn clipub in
      match err with
      | Some e =>
          let '(_, conn) := io.Close conn in
          mkHandled conn rnd
            [Printf "handleConnection.io.conn.Read: %v\n" (ArgErr e)]
            None false
      | None =>
        if negb (n =? keysz) then
          let '(_, conn) := io.Close conn in
          mkHandled conn rnd
            [Printf
               "handleConnection: could only read <%d> bytes of client's public key.\n"
               (ArgInt n)] None false
        else
          let swr := NewSecureReadWriter pri clipub in
          (* defer swr.Close() *)
          let leave (conn : Conn) (rnd : Source) (out : list printed)
                    (panic : bool) : Handled :=
            let '(_, conn) := secureReadWriter_Close swr conn in
            mkHandled conn rnd out (Some swr) panic in
          let buf := make 2048 in
          let '(n, err, buf, conn) := secureReadWriter_Read swr conn buf in
          if negb (is_nil err) && negb (is_EOF err) then
            leave conn rnd
              [Printf "handleConnection.swr.Read: %v\n"
                      (match err with Some x => ArgErr x | None => ArgNone end)]
              false
          else
            match slice_to buf n with
            | None => leave conn rnd [] true
            | Some msg =>
              let '(n, err, rnd, conn) :=
                secureReadWriter_Write swr rnd conn msg in
              match err with
              | Some e =>
                  leave conn rnd
                    [Printf "handleConnection.swr.Write: %v\n" (ArgErr e)]
                    false
              | None => leave conn rnd [] false
              end
            end
      end
  end.

(** *** Serve *)

(** A net.Listener is the script of what [Accept] returns: the connections
    it accepts, each with the bytes [rand.Reader] hands to that
    connection's goroutine, and the error that ends the loop. *)
Record Listener : Type := mkListener {
  pending : list (Conn * Source);
  lerr : error
}.

(** The [for] loop of [Serve].  Every goroutine [go handleConnection(..)]
    works on a connection of its own and is run to its end. *)
Fixpoint Serve_loop (pending : list (Conn * Source)) (lerr : error)
    (priv pub : key) : error * list Handled :=
  match pending with
  | [] => (lerr, [])
  | (conn, rnd) :: rest =>
      let h := handleConnection rnd conn priv pub in
      let '(err, hs) := Serve_loop rest lerr priv pub in
      (err, h :: hs)
  end.

(** [Serve(l)]: the error returned and what the goroutines did. *)
Definition Serve (rnd : Source) (l : Listener) : error * list Handled :=
  let '(keys, _) := box.GenerateKey rnd in
  match keys with
  | inr err => (err, [])
  | inl (pub, priv) => Serve_loop (pending l) (lerr l) priv pub
  end.

End Main.

(* ================================================================= *)
(** ** Observations stated about runs *)

(** The server public key as the peer of a connection sees it: the first
    buffer the handler [h] wrote on the connection, [conn] being the
    connection as it was accepted. *)
Definition server_key_sent (conn : Conn) (h : Handled)
    : option (list byte) :=
  nth_error (accepted (wr (h_conn h))) (length (accepted (wr conn))).


(** "No server key pair is reused across two accepted connections": in the
    run of [Serve], two different accepted connections are sent different
    server public keys. *)
Definition fresh_server_keys `{box.Lib} (rnd : Source) (l : Listener) : Prop :=
  forall i j ci cj hi hj,
    i <> j ->
    nth_error (pending l) i = Some ci ->
    nth_error (pending l) j = Some cj ->
    nth_error (snd (Serve rnd l)) i = Some hi ->
    nth_error (snd (Serve rnd l)) j = Some hj ->
    server_key_sent (fst ci) hi <> server_key_sent (fst cj) hj.

(** "A decrypted message larger than the caller's buffer is cut to the
    buffer and the rest discarded": the message [M], longer than the
    non-empty buffer [p], is written by the peer, and one [Read] into [p]
    returns [len(p)] with [p] holding the first [len(p)] bytes of [M]. *)
Definition discards_overflow `{box.Lib} (privA privB : key) (rnd : Source)
    (M p : list byte) : Prop :=
  let pubA := box.ScalarBaseMult privA in
  let pubB := box.ScalarBaseMult privB in
  forall n rnd' w',
    secureWriter_Write (NewSecureWriter privA pubB) rnd (mkSink [] []) M
      = (n, None, rnd', w') ->
    p <> [] ->
    length p < length M ->
    exists src',
      secureReader_Read (NewSecureReader privB pubA) (pipe (accepted w')) p
      = (length p, None, firstn (length p) M, src').

(* ================================================================= *)
(** ** main *)

(** The public key [box.GenerateKey] returns is a [*[32]byte]: the type of
    curve25519.ScalarBaseMult's result in the library. *)
Definition public_keys_are_keysz `{box.Lib} : Prop :=
  forall priv, length (box.ScalarBaseMult priv) = keysz.

(** What [log.Fatal(err)] and [log.Fatalf(format, arg)] were called with;
    either ends the process. *)
Inductive fatal : Type :=
| Fatal (err : error)
| Fatalf (format : string) (arg : string).

Section MainFunction.

Context `{box.Lib}.

(** How a run of [main] ends: the call of log.Fatal that ended it, if
    any; the operand of the final [fmt.Printf("%s\n", buf[:n])], if it was
    reached; whether the run panicked; and what is left behind: the
    connection [Dial] opened, in its final state, and what the goroutines
    of [Serve] did. *)
Record Ran : Type := mkRan {
  m_fatal : option fatal;
  m_printed : option (list byte);
  m_panic : bool;
  m_conn : option Conn;
  m_served : list Handled
}.

(** [port] is the value of the flag [-l] after [flag.Parse()] and [Args]
    is [os.Args]; [net_Listen port] is the outcome of
    [net.Listen("tcp", fmt.Sprintf(":%d", port))] and [net_Dial addr] that
    of [net.Dial("tcp", addr)].  A call of a method on a nil interface
    value, an index out of range and a slice out of bounds are panics. *)
Definition main (port : Z) (Args : list string)
    (net_Listen : Z -> Listener + error)
    (net_Dial : string -> Conn + error) (rnd : Source) : Ran :=
  if negb (port =? 0)%Z then
    (* Server mode *)
    match net_Listen port with
    | inr err => mkRan (Some (Fatal err)) None false None []
    | inl l =>
        let '(err, served) := Serve rnd l in
        mkRan (Some (Fatal err)) None false None served
    end
  else
    (* Client mode *)
    match Args with
    | [_; port_arg; message] =>
      let d := Dial net_Dial rnd (String.append "localhost:" port_arg) in
      match d_err d with
      | Some err =>
          mkRan (Some (Fatal err)) None false (d_conn d) []
      | None =>
        match d_rwc d, d_conn d with
        | Some conn, Some c =>
          let '(_, err, rnd, c) :=
            secureReadWriter_Write conn (d_rand d) c
                                   (list_byte_of_string message) in
          match err with
          | Some e => mkRan (Some (Fatal e)) None false (Some c) []
          | None =>
            let buf := make (String.length message) in
            let '(n, err, buf, c) := secureReadWriter_Read conn c buf in
            if negb (is_nil err) && negb (is_EOF err) then
              mkRan (option_map Fatal err) None false (Some c) []
            else
              match slice_to buf n with
              | Some out => mkRan None (Some out) false (Some c) []
              | None => mkRan None None true (Some c) []
              end
          end
        | _, _ => mkRan None None true (d_conn d) []
        end
      end
    | prog :: _ =>
        mkRan (Some (Fatalf "Usage: %s <port> <message>" prog)) None false
              None []
    | [] => mkRan None None true None []
    end.

End MainFunction.

(* ================================================================= *)
(** ** A reference instance of the box interface *)

(** An executable stand-in for nacl/box with the same shape (a
    Diffie-Hellman agreement, a stream cipher keyed by the shared key and the
    nonce, a 16-byte authenticator placed before the ciphertext), small
    enough to run inside Rocq.  It is what the concrete runs below are
    evaluated with; it makes no claim to the security of the real
    library. *)
Module refbox.

Local Open Scope Z_scope.

Definition byte_of_Z (z : Z) : byte :=
  match Byte.of_N (Z.to_N z) with
  | Some b => b
  | None => x00
  end.

Definition Z_of_byte (b : byte) : Z := Z.of_N (Byte.to_N b).

(** Little-endian integers. *)
Fixpoint le_decode (bs : list byte) : Z :=
  match bs with
  | [] => 0
  | b :: bs' => Z_of_byte b + 256 * le_decode bs'
  end.

Fixpoint le_encode (len : nat) (z : Z) : list byte :=
  match len with
  | O => []
  | S len' => byte_of_Z (z mod 256) :: le_encode len' (z / 256)
  end.

(** Key agreement: exponentiation modulo the prime 2^255 - 19. *)
Definition P : Z := 2 ^ 255 - 19.

Definition ScalarMult (scalar point : key) : key :=
  le_encode 32 (Zpow_mod (le_decode point) (le_decode scalar) P).

Definition basepoint : key := le_encode 32 9.

Definition ScalarBaseMult (scalar : key) : key :=
  ScalarMult scalar basepoint.

Definition Precompute (peersPublicKey privateKey : key) : key :=
  ScalarMult privateKey peersPublicKey.

(** Stream cipher: byte [i] of the message is xored with a byte drawn from
    the key and the nonce. *)
Definition xor8 (a b : byte) : byte :=
  let '(a0, (a1, (a2, (a3, (a4, (a5, (a6, a7))))))) := Byte.to_bits a in
  let '(b0, (b1, (b2, (b3, (b4, (b5, (b6, b7))))))) := Byte.to_bits b in
  Byte.of_bits (xorb a0 b0, (xorb a1 b1, (xorb a2 b2, (xorb a3 b3,
               (xorb a4 b4, (xorb a5 b5, (xorb a6 b6, xorb a7 b7))))))).

Definition stream (k nonce : list byte) (i : nat) : byte :=
  xor8 (nth (i mod 32) k x00)
       (xor8 (nth (i mod 24) nonce x00) (byte_of_Z (Z.of_nat i mod 256))).

Fixpoint crypt (k nonce : list byte) (i : nat) (m : list byte) : list byte :=
  match m with
  | [] => []
  | b :: m' => xor8 b (stream k nonce i) :: crypt k nonce (S i) m'
  end.

(** Authenticator: a polynomial in the ciphertext bytes, 16 bytes long. *)
Definition mac (k nonce ct : list byte) : list byte :=
  let r := 1 + le_decode (firstn 16 k) + le_decode nonce in
  let s := le_decode (skipn 16 k) in
  let acc :=
    fold_left (fun acc b => ((acc + Z_of_byte b + 1) * r) mod (2 ^ 130 - 5))
              ct 0 in
  le_encode 16 ((acc + s) mod 2 ^ 128).

Fixpoint bytes_eqb (a b : list byte) : bool :=
  match a, b with
  | [], [] => true
  | x :: a', y :: b' => Byte.eqb x y && bytes_eqb a' b'
  | _, _ => false
  end.

Definition SealAfterPrecomputation (message nonce sharedKey : list byte)
    : list byte :=
  let ct := crypt sharedKey nonce 0 message in
  mac sharedKey nonce ct ++ ct.

Definition OpenAfterPrecomputation (box nonce sharedKey : list byte)
    : option (list byte) :=
  if (length box <? 16)%nat then None
  else
    let tag := firstn 16 box in
    let ct := skipn 16 box in
    if bytes_eqb tag (mac sharedKey nonce ct)
    then Some (crypt sharedKey nonce 0 ct)
    else None.

Definition lib : box.Lib := {|
  box.ScalarBaseMult := ScalarBaseMult;
  box.Precompute := Precompute;
  box.SealAfterPrecomputation := SealAfterPrecomputation;
  box.OpenAfterPrecomputation := OpenAfterPrecomputation
|}.

End refbox.

(* ================================================================= *)
(** ** Concrete runs *)

(** Two parties with the reference instance: private keys, the public keys
    [box.GenerateKey] derives from them, a nonce as [rand.Reader] would hand
    it out, and a few messages and transports. *)
Module run.

#[local] Existing Instance refbox.lib.

Definition alice_priv : key := x03 :: repeat x00 31.
Definition bob_priv : key := x05 :: repeat x00 31.
Definition alice_pub : key := box.ScalarBaseMult alice_priv.
Definition bob_pub : key := box.ScalarBaseMult bob_priv.

Definition nonce0 : list byte := repeat x2a 24.

(** "ping" and "hi" *)
Definition ping : list byte := [x70; x69; x6e; x67].
Definition hi : list byte := [x68; x69].

(** Alice's writer, Bob's reader. *)
Definition alice_writer : secureWriter := NewSecureWriter alice_priv bob_pub.
Definition bob_reader : secureReader := NewSecureReader bob_priv alice_pub.

(** The sink after Alice wrote [msg] to a fresh sink, with [nonce0] as the
    nonce. *)
Definition sent (msg : list byte) : Sink :=
  let '(_, _, _, w) :=
    secureWriter_Write alice_writer (pipe [nonce0]) (mkSink [] []) msg in
  w.

(** A frame whose ciphertext is ten bytes of junk, shorter than an
    authenticator. *)
Definition junk_frame : Source := pipe [nonce0; repeat x07 10].

(** A stream that ends after ten bytes. *)
Definition ten_bytes : Source := pipe [repeat x01 10].

(** A sink that takes the nonce and then only 16 bytes of the sealed box,
    with an error. *)
Definition short_sink : Sink := mkSink [] [Accept; Refuse 16 (ErrExternal 1)].

(** Connections for the handshake: the peer sends only ten bytes; the peer
    sends a 32-byte key but takes only five bytes; the peer takes only five
    bytes; the peer sends nothing and takes everything. *)
Definition conn_short_read : Conn :=
  mkConn ten_bytes (mkSink [] []) false.
Definition conn_short_write : Conn :=
  mkConn (pipe [bob_pub]) (mkSink [] [Refuse 5 (ErrExternal 2)]) false.
Definition conn_refusing : Conn :=
  mkConn [] (mkSink [] [Refuse 5 (ErrExternal 2)]) false.
Definition conn_silent : Conn := mkConn [] (mkSink [] []) false.

(** A listener that accepts two connections and is then closed. *)
Definition two_connections : Listener :=
  mkListener [(conn_silent, []); (conn_silent, [])] ErrClosed.

(** [rand.Reader] about to hand out Alice's, or Bob's, private key. *)
Definition rand_alice : Source := pipe [alice_priv].
Definition rand_bob : Source := pipe [bob_priv].

(** A second nonce, and the sink after Alice wrote [ping] and then [hi]
    with the two nonces. *)
Definition nonce1 : list byte := repeat x17 24.

Definition sent_ping_hi : Sink :=
  let '(_, _, rnd1, w1) :=
    secureWriter_Write alice_writer (pipe [nonce0; nonce1]) (mkSink [] [])
                       ping in
  let '(_, _, _, w2) := secureWriter_Write alice_writer rnd1 w1 hi in
  w2.

(** [short_sink] after Alice tried to write five bytes to it. *)
Definition short_sent : Sink :=
  let '(_, _, _, w) :=
    secureWriter_Write alice_writer (pipe [nonce0]) short_sink
                       (ping ++ [x21]) in
  w.

(** Bob as the server, Alice as the client: the connection as Alice's
    [Dial] finds it when Bob has sent his key, and the two ends of the
    connection over which "ping" is echoed. *)
Definition conn_bob_key : Conn :=
  mkConn (pipe [bob_pub]) (mkSink [] []) false.

Definition echo_key : key := box.Precompute alice_pub bob_priv.

Definition to_bob : list (list byte) :=
  [alice_pub; nonce0; box.SealAfterPrecomputation ping nonce0 echo_key].
Definition to_alice : list (list byte) :=
  [bob_pub; nonce1; box.SealAfterPrecomputation ping nonce1 echo_key].

Definition bob_end : Conn := mkConn (pipe to_bob) (mkSink [] []) false.
Definition alice_end : Conn := mkConn (pipe to_alice) (mkSink [] []) false.

Definition bob_listener : Listener :=
  mkListener [(bob_end, pipe [nonce1])] ErrClosed.

End run.

(* ================================================================= *)
(** * Properties *)

(** ** Facts about the collaborators *)

Section IoFacts.

Lemma length_nonempty {A} (l : list A) : l <> [] -> (length l =? 0) = false.
Proof. destruct l; [congruence|reflexivity]. Qed.

Lemma short_not_keysz (n : nat) : n < keysz -> negb (n =? keysz) = true.
Proof.
  intros Hn. apply negb_true_iff, Nat.eqb_neq. lia.
Qed.

Lemma Source_Read_unfold (r : Source) (p : list byte) :
  io.Read r p = Source_Read r p.
Proof. reflexivity. Qed.

(** One [Read] of a scripted source keeps the buffer's length, delivers no
    more than the buffer holds, writes the bytes it delivers at the front
    of the buffer, and on a non-empty buffer makes progress: a byte or an
    error. *)
Lemma Source_Read_spec (r : Source) :
  forall p n err p' r',
    Source_Read r p = (n, err, p', r') ->
    length p' = length p /\ n <= length p /\
    skipn n p' = skipn n p /\
    (p <> [] -> 0 < n \/ err <> None).
Proof.
  induction r as [|[d e] r IH]; intros p n err p' r' E; simpl in E.
  - inversion E; subst. repeat split; auto; try lia. right; discriminate.
  - assert (Hmain :
      (if length p =? 0 then (0, None, p, (d, e) :: r)
       else if length d <=? length p
            then (length d, e, d ++ skipn (length d) p, r)
            else (length p, None, firstn (length p) d,
                  (skipn (length p) d, e) :: r)) = (n, err, p', r') ->
      (d <> [] \/ e <> None) ->
      length p' = length p /\ n <= length p /\
      skipn n p' = skipn n p /\ (p <> [] -> 0 < n \/ err <> None)).
    { clear E IH. intros E Hde.
      destruct (length p =? 0) eqn:Hp.
      - inversion E; subst. apply Nat.eqb_eq in Hp.
        destruct p'; [|discriminate].
        repeat split; auto; try lia; congruence.
      - apply Nat.eqb_neq in Hp.
        destruct (length d <=? length p) eqn:Hd.
        + apply Nat.leb_le in Hd. inversion E; subst.
          repeat split; auto.
          * rewrite length_app, length_skipn. lia.
          * rewrite skipn_app, skipn_all, Nat.sub_diag. reflexivity.
          * intros _. destruct d as [|b d]; [|left; simpl; lia].
            right. destruct Hde; congruence.
        + apply Nat.leb_gt in Hd. inversion E; subst.
          repeat split; try lia.
          * rewrite length_firstn. lia.
          * rewrite !skipn_all2; auto. rewrite length_firstn. lia. }
    destruct d as [|b d]; [destruct e as [e|]|].
    + apply Hmain; auto. right; discriminate.
    + eauto.
    + apply Hmain; auto. left; discriminate.
Qed.

(** The loop of [io.ReadAtLeast] over a scripted source: the buffer keeps
    its length, the count only grows and stays within the buffer, the
    bytes before the starting count are not touched, the loop stops short
    of [min] only with an error, and more fuel changes nothing. *)
Lemma ReadAtLeast_loop_spec :
  forall fuel (r : Source) buf min n err n' err' buf' r',
    io.ReadAtLeast_loop fuel r buf min n err = (n', err', buf', r') ->
    n <= length buf -> min <= length buf ->
    (err = None -> min - n <= fuel) ->
    length buf' = length buf /\ n <= n' <= length buf /\
    (n' < min -> err' <> None) /\
    firstn n buf' = firstn n buf /\
    forall k, io.ReadAtLeast_loop (fuel + k) r buf min n err
              = (n', err', buf', r').
Proof.
  induction fuel as [|fuel IH];
    intros r buf min n err n' err' buf' r' E Hn Hmin Hfuel.
  - simpl in E. inversion E; subst.
    repeat split; auto; try lia.
    + intros Hlt. intros ->. specialize (Hfuel eq_refl). lia.
    + intros [|k]; simpl; auto.
      destruct (n' <? min) eqn:Hlt; simpl; auto.
      apply Nat.ltb_lt in Hlt.
      destruct err' as [e|]; simpl; auto.
      specialize (Hfuel eq_refl). lia.
  - simpl in E. simpl.
    destruct ((n <? min) && is_nil err) eqn:Hc.
    + apply andb_true_iff in Hc. destruct Hc as [Hlt Hnil].
      apply Nat.ltb_lt in Hlt.
      rewrite Source_Read_unfold in *.
      destruct (Source_Read r (skipn n buf)) as [[[nn e1] tl] r1] eqn:ER.
      apply Source_Read_spec in ER.
      rewrite length_skipn in ER.
      destruct ER as (Hlen & Hnn & _ & Hprog).
      assert (Hne : skipn n buf <> []).
      { intros Hnil'. apply (f_equal (@length byte)) in Hnil'.
        rewrite length_skipn in Hnil'. simpl in Hnil'. lia. }
      specialize (Hprog Hne).
      apply IH in E.
      * destruct E as (L1 & L2 & L3 & L4 & L5).
        rewrite length_app, length_firstn in L1, L2.
        repeat split; auto; try lia.
        apply (f_equal (firstn n)) in L4.
        rewrite !firstn_firstn in L4.
        replace (Nat.min n (n + nn)) with n in L4 by lia.
        rewrite L4, firstn_app, firstn_firstn, length_firstn.
        replace (Nat.min n n) with n by lia.
        replace (n - Nat.min n (length buf)) with 0 by lia.
        simpl. apply app_nil_r.
      * rewrite length_app, length_firstn. lia.
      * rewrite length_app, length_firstn. lia.
      * intros ->. destruct err; [discriminate|].
        specialize (Hfuel eq_refl).
        destruct Hprog as [Hp|Hp]; [lia|congruence].
    + inversion E; subst.
      repeat split; auto; try lia.
      apply andb_false_iff in Hc. destruct Hc as [Hc|Hc].
      * apply Nat.ltb_ge in Hc. lia.
      * intros _. intros ->. discriminate.
Qed.

(** The fuel [io.ReadAtLeast] gives its loop is enough: with more, the loop
    ends in the same state. *)
Lemma ReadAtLeast_fuel_enough (r : Source) buf min k :
  min <= length buf ->
  io.ReadAtLeast_loop (min + k) r buf min 0 None
  = io.ReadAtLeast_loop min r buf min 0 None.
Proof.
  intros Hmin.
  destruct (io.ReadAtLeast_loop min r buf min 0 None)
    as [[[n e] b] r'] eqn:E.
  apply ReadAtLeast_loop_spec in E; try lia.
  destruct E as (_ & _ & _ & _ & Hk). apply Hk.
Qed.

(** [io.ReadFull] over a scripted source: the buffer keeps its length; the
    call succeeds exactly when it filled the buffer; a failure after at
    least one byte is never [io.EOF]. *)
Lemma ReadFull_spec (r : Source) buf n err buf' r' :
  io.ReadFull r buf = (n, err, buf', r') ->
  length buf' = length buf /\ n <= length buf /\
  (err = None <-> n = length buf) /\
  (0 < n -> err <> Some EOF).
Proof.
  unfold io.ReadFull, io.ReadAtLeast. rewrite Nat.ltb_irrefl.
  destruct (io.ReadAtLeast_loop (length buf) r buf (length buf) 0 None)
    as [[[n0 e0] b0] r0] eqn:EL.
  intros E. inversion E; subst; clear E.
  apply ReadAtLeast_loop_spec in EL; try lia.
  destruct EL as (L1 & L2 & L3 & _ & _).
  repeat split; auto; try lia.
  - destruct (length buf <=? n) eqn:Hle.
    + apply Nat.leb_le in Hle. lia.
    + apply Nat.leb_gt in Hle. specialize (L3 Hle).
      destruct (0 <? n); simpl; [destruct (is_EOF e0)|]; congruence.
  - intros ->. rewrite Nat.leb_refl. reflexivity.
  - intros Hpos. destruct (length buf <=? n); [discriminate|].
    apply Nat.ltb_lt in Hpos. rewrite Hpos. simpl.
    destruct e0 as [[]|]; simpl; discriminate.
Qed.

(** A source whose next [Read] reports a clean end of stream makes
    [io.ReadFull] report [io.EOF] with no byte read. *)
Lemma ReadFull_EOF (r : Source) buf b r' :
  buf <> [] ->
  io.Read r buf = (0, Some EOF, b, r') ->
  io.ReadFull r buf = (0, Some EOF, buf, r').
Proof.
  intros Hne ER.
  assert (Hb : b = buf).
  { rewrite Source_Read_unfold in ER. apply Source_Read_spec in ER.
    destruct ER as (_ & _ & Hs & _). exact Hs. }
  subst b.
  unfold io.ReadFull, io.ReadAtLeast. rewrite Nat.ltb_irrefl.
  destruct buf as [|x buf]; [congruence|].
  change (length (x :: buf)) with (S (length buf)).
  cbn [io.ReadAtLeast_loop Nat.ltb Nat.leb andb is_nil skipn firstn app].
  rewrite ER.
  destruct (length buf); reflexivity.
Qed.

(** One [Read] from a chunk that fits the buffer, and from one that holds
    more than the buffer. *)
Lemma Source_Read_chunk (d : list byte) e (rest : Source) p :
  d <> [] -> length d <= length p ->
  Source_Read ((d, e) :: rest) p
  = (length d, e, d ++ skipn (length d) p, rest).
Proof.
  intros Hd Hle. destruct d as [|y d]; [congruence|].
  cbn [Source_Read].
  destruct (length p =? 0) eqn:Hp.
  - apply Nat.eqb_eq in Hp. simpl in Hle. lia.
  - apply Nat.leb_le in Hle. rewrite Hle. reflexivity.
Qed.

Lemma Source_Read_prefix (d : list byte) e (rest : Source) p :
  p <> [] -> length p < length d ->
  Source_Read ((d, e) :: rest) p
  = (length p, None, firstn (length p) d, (skipn (length p) d, e) :: rest).
Proof.
  intros Hp Hlt. destruct d as [|y d]; [simpl in Hlt; lia|].
  cbn [Source_Read].
  destruct (length p =? 0) eqn:Hp0.
  - apply Nat.eqb_eq in Hp0. destruct p; [congruence|discriminate].
  - apply Nat.leb_gt in Hlt. rewrite Hlt. reflexivity.
Qed.

Lemma ReadAtLeast_loop_step {T} `{io.Reader T} fuel (r : T) buf min n :
  n < min ->
  io.ReadAtLeast_loop (S fuel) r buf min n None
  = let '(nn, err', tl, r') := io.Read r (skipn n buf) in
    io.ReadAtLeast_loop fuel r' (firstn n buf ++ tl) min (n + nn) err'.
Proof.
  intros Hlt. apply Nat.ltb_lt in Hlt.
  cbn [io.ReadAtLeast_loop]. rewrite Hlt. reflexivity.
Qed.

Lemma ReadAtLeast_loop_done {T} `{io.Reader T} fuel (r : T) buf min n err :
  min <= n ->
  io.ReadAtLeast_loop fuel r buf min n err = (n, err, buf, r).
Proof.
  intros Hle. apply Nat.ltb_ge in Hle.
  destruct fuel; cbn [io.ReadAtLeast_loop]; [|rewrite Hle]; reflexivity.
Qed.

(** [io.ReadFull] from a data chunk that fills the buffer exactly, and from
    one that holds more than the buffer. *)
Lemma ReadFull_exact (d buf : list byte) (rest : Source) :
  buf <> [] -> length d = length buf ->
  io.ReadFull ((d, None) :: rest) buf = (length buf, None, d, rest).
Proof.
  intros Hne Hlen.
  assert (Hd : d <> []) by (destruct d, buf; simpl in *; congruence).
  unfold io.ReadFull, io.ReadAtLeast. rewrite Nat.ltb_irrefl.
  destruct (length buf) as [|k] eqn:HL;
    [destruct buf; [congruence|discriminate]|].
  rewrite ReadAtLeast_loop_step by lia.
  rewrite Source_Read_unfold. cbn [skipn firstn app].
  rewrite Source_Read_chunk by (auto; lia).
  rewrite ReadAtLeast_loop_done by lia.
  rewrite Hlen, <- HL, skipn_all, app_nil_r, HL.
  cbn [Nat.add]. rewrite Nat.leb_refl. reflexivity.
Qed.

Lemma ReadFull_prefix (d1 d2 buf : list byte) (rest : Source) :
  buf <> [] -> d2 <> [] -> length d1 = length buf ->
  io.ReadFull ((d1 ++ d2, None) :: rest) buf
  = (length buf, None, d1, (d2, None) :: rest).
Proof.
  intros Hne Hd2 Hlen.
  assert (Hlt : length buf < length (d1 ++ d2)).
  { rewrite length_app. destruct d2; [congruence|simpl; lia]. }
  unfold io.ReadFull, io.ReadAtLeast. rewrite Nat.ltb_irrefl.
  destruct (length buf) as [|k] eqn:HL;
    [destruct buf; [congruence|discriminate]|].
  rewrite ReadAtLeast_loop_step by lia.
  rewrite Source_Read_unfold. cbn [skipn firstn app].
  rewrite Source_Read_prefix by (auto; lia).
  rewrite ReadAtLeast_loop_done by lia.
  rewrite HL, <- Hlen.
  rewrite firstn_app, firstn_all, Nat.sub_diag, skipn_app, skipn_all,
    Nat.sub_diag.
  cbn [firstn skipn app Nat.add]. rewrite app_nil_r, Nat.leb_refl.
  reflexivity.
Qed.

(** A sink that returns no error took the whole buffer. *)
Lemma Sink_Write_ok (w : Sink) (p : list byte) n w' :
  io.Write w p = (n, None, w') ->
  n = length p /\ accepted w' = accepted w ++ [p].
Proof.
  unfold io.Write, Sink_Writer, Sink_Write.
  destruct (script w) as [|[|k e] s]; intros E; inversion E; auto.
Qed.

(** Any call of a sink records the part of the buffer it took, which is
    never more than the buffer. *)
Lemma Sink_Write_spec (w : Sink) (p : list byte) n err w' :
  io.Write w p = (n, err, w') ->
  n <= length p /\ accepted w' = accepted w ++ [firstn n p].
Proof.
  unfold io.Write, Sink_Writer, Sink_Write.
  destruct (script w) as [|[|k e] s]; intros E; inversion E; subst; simpl;
    rewrite ?firstn_all; split; auto; try lia.
  destruct (Nat.le_ge_cases k (length p)).
  - now rewrite Nat.min_l.
  - rewrite Nat.min_r, firstn_all, firstn_all2; auto.
Qed.

Lemma Conn_Close_closed (c c' : Conn) e :
  io.Close c = (e, c') -> closed c' = true.
Proof.
  unfold io.Close, Conn_Closer, Conn_Close.
  destruct (closed c) eqn:Hc; intros E; inversion E; subst; auto.
Qed.

(** Reading from a connection and closing it leave its sink alone;
    writing to it only adds to what the sink took. *)
Lemma Conn_Read_wr (c c' : Conn) p n e p' :
  io.Read c p = (n, e, p', c') -> wr c' = wr c.
Proof.
  unfold io.Read at 1, Conn_Reader, Conn_Read.
  destruct (closed c); [intros E; inversion E; auto|].
  destruct (io.Read (rd c) p) as [[[? ?] ?] ?].
  intros E; inversion E; auto.
Qed.

Lemma Conn_Close_wr (c c' : Conn) e :
  io.Close c = (e, c') -> wr c' = wr c.
Proof.
  unfold io.Close, Conn_Closer, Conn_Close.
  destruct (closed c); intros E; inversion E; auto.
Qed.

Lemma Conn_Write_extends (c c' : Conn) p n e :
  io.Write c p = (n, e, c') ->
  exists more, accepted (wr c') = accepted (wr c) ++ more.
Proof.
  unfold io.Write at 1, Conn_Writer, Conn_Write.
  destruct (closed c).
  - intros E; inversion E; subst. exists []. now rewrite app_nil_r.
  - destruct (io.Write (wr c) p) as [[n1 e1] w1] eqn:HW.
    intros E; inversion E; subst; simpl.
    apply Sink_Write_spec in HW. destruct HW as [_ HW]. eauto.
Qed.

Lemma Conn_Write_ok (c c' : Conn) p n :
  io.Write c p = (n, None, c') ->
  n = length p /\ accepted (wr c') = accepted (wr c) ++ [p].
Proof.
  unfold io.Write at 1, Conn_Writer, Conn_Write.
  destruct (closed c); [discriminate|].
  destruct (io.Write (wr c) p) as [[n1 e1] w1] eqn:HW.
  intros E; inversion E; subst; simpl.
  apply Sink_Write_ok in HW. exact HW.
Qed.

Lemma ReadAtLeast_loop_wr fuel :
  forall (c : Conn) buf min n err n' err' buf' c',
    io.ReadAtLeast_loop fuel c buf min n err = (n', err', buf', c') ->
    wr c' = wr c.
Proof.
  induction fuel as [|fuel IH]; intros c buf min n err n' err' buf' c' E;
    cbn [io.ReadAtLeast_loop] in E.
  - inversion E; auto.
  - destruct ((n <? min) && is_nil err); [|inversion E; auto].
    destruct (io.Read c (skipn n buf)) as [[[nn e1] tl] c1] eqn:HR.
    apply IH in E. apply Conn_Read_wr in HR. congruence.
Qed.

Lemma ReadFull_wr (c c' : Conn) buf n err buf' :
  io.ReadFull c buf = (n, err, buf', c') -> wr c' = wr c.
Proof.
  unfold io.ReadFull, io.ReadAtLeast.
  destruct (length buf <? length buf); [intros E; inversion E; auto|].
  destruct (io.ReadAtLeast_loop (length buf) c buf (length buf) 0 None)
    as [[[n0 e0] b0] c0] eqn:HL.
  intros E; inversion E; subst. eapply ReadAtLeast_loop_wr; eauto.
Qed.

End IoFacts.

(* ================================================================= *)
(** ** The program *)

Section Properties.

Context `{L : box.Lib}.

(** *** secureReader *)

(** X1. Whenever [Read] returns an error, whichever of its steps failed,
    the caller's buffer is as it was. *)
Lemma secureReader_Read_error_keeps_buffer {T} `{io.Reader T}
    (sr : secureReader) (r : T) (p : list byte) n e p' r' :
  secureReader_Read sr r p = (n, Some e, p', r') -> p' = p.
Proof.
  unfold secureReader_Read; cbv zeta.
  destruct (length p =? 0); [congruence|].
  destruct (io.ReadFull r (make noncesz)) as [[[n1 e1] nonce] r1].
  destruct e1; [congruence|].
  destruct (negb (n1 =? noncesz)); [congruence|].
  destruct (io.Read r1 (make (length p + box.Overhead)))
    as [[[n2 e2] enc] r2].
  destruct e2; [congruence|].
  destruct (box.OpenAfterPrecomputation (firstn n2 enc) nonce (sr_key sr));
    [|congruence].
  destruct (copy p l). congruence.
Qed.

(** C4. When the nonce and the candidate ciphertext were read and
    [box.OpenAfterPrecomputation] rejects the ciphertext, [Read] returns a
    non-nil error and the caller's buffer [p] is unchanged. *)
Theorem secureReader_Read_decrypt_failure {T} `{io.Reader T}
    (sr : secureReader) (r r1 r2 : T) (p nonce enc : list byte) (n : nat) :
  p <> [] ->
  io.ReadFull r (make noncesz) = (noncesz, None, nonce, r1) ->
  io.Read r1 (make (length p + box.Overhead)) = (n, None, enc, r2) ->
  box.OpenAfterPrecomputation (firstn n enc) nonce (sr_key sr) = None ->
  exists e, secureReader_Read sr r p = (n, Some e, p, r2).
Proof.
  intros Hp HN HC HO.
  unfold secureReader_Read; cbv zeta.
  rewrite (length_nonempty p Hp), HN. cbv beta iota.
  rewrite Nat.eqb_refl. cbn [negb].
  rewrite HC. cbv beta iota. rewrite HO.
  eexists. reflexivity.
Qed.

(** C7. With a non-empty buffer: if the source is at a clean end of
    stream (its next [Read] delivers no byte and [io.EOF]), [Read] returns
    [io.EOF]; if the nonce read obtains more than zero and fewer than 24
    bytes, [Read] returns an error that is not [io.EOF]. *)
Theorem secureReader_Read_end_of_stream
    (sr : secureReader) (r : Source) (p : list byte) :
  p <> [] ->
  (forall b r', io.Read r (make noncesz) = (0, Some EOF, b, r') ->
     secureReader_Read sr r p = (0, Some EOF, p, r')) /\
  (forall n err nonce r',
     io.ReadFull r (make noncesz) = (n, err, nonce, r') ->
     0 < n < noncesz ->
     exists e, secureReader_Read sr r p = (n, Some e, p, r') /\ e <> EOF).
Proof.
  intros Hp. split.
  - intros b r' ER.
    unfold secureReader_Read; cbv zeta.
    rewrite (length_nonempty p Hp).
    rewrite (ReadFull_EOF r (make noncesz) b r'); auto.
    discriminate.
  - intros n err nonce r' ER Hn.
    unfold secureReader_Read; cbv zeta.
    rewrite (length_nonempty p Hp), ER. cbv beta iota.
    apply ReadFull_spec in ER.
    destruct ER as (_ & _ & Hnil & Heof).
    change (length (make noncesz)) with noncesz in Hnil.
    destruct err as [e|].
    + exists e. split; [reflexivity|]. intros ->. apply Heof; [lia|auto].
    + exfalso. assert (n = noncesz) by (apply Hnil; reflexivity). lia.
Qed.

(** *** secureWriter *)

(** What a [Write] of a non-empty [p] that returns no error has done: it
    drew a 24-byte nonce from [rand.Reader] and the sink took the nonce and
    then the sealed box, each in one call. *)
Lemma secureWriter_Write_ok
    (sw : secureWriter) (rnd : Source) (w : Sink) (p : list byte)
    n rnd' w' :
  p <> [] ->
  secureWriter_Write sw rnd w p = (n, None, rnd', w') ->
  exists nonce,
    rand.Read rnd (make noncesz) = (noncesz, None, nonce, rnd') /\
    length nonce = noncesz /\
    accepted w' =
      accepted w ++ [nonce; box.SealAfterPrecomputation p nonce (sw_key sw)] /\
    n = (let c := length (box.SealAfterPrecomputation p nonce (sw_key sw)) in
         if box.Overhead <? c then c - box.Overhead else c).
Proof.
  intros Hp.
  unfold secureWriter_Write; cbv zeta.
  rewrite (length_nonempty p Hp).
  destruct (rand.Read rnd (make noncesz)) as [[[n1 e1] nonce] rnd1] eqn:HR.
  destruct e1; [congruence|].
  destruct (n1 =? noncesz) eqn:Hn1; cbn [negb]; [|congruence].
  apply Nat.eqb_eq in Hn1. subst n1.
  destruct (io.Write w nonce) as [[n2 e2] w1] eqn:HW1.
  destruct e2; [congruence|].
  destruct (n2 =? noncesz) eqn:Hn2; cbn [negb]; [|congruence].
  destruct (io.Write w1 (box.SealAfterPrecomputation p nonce (sw_key sw)))
    as [[n3 e3] w2] eqn:HW2.
  intros E. inversion E; subst; clear E.
  apply Sink_Write_ok in HW1, HW2.
  destruct HW1 as [_ A1]. destruct HW2 as [N3 A2].
  unfold rand.Read in HR. pose proof (ReadFull_spec _ _ _ _ _ _ HR) as S.
  destruct S as (Hlen & _).
  exists nonce. repeat split; auto.
  - rewrite A2, A1, <- app_assoc. reflexivity.
  - rewrite N3. reflexivity.
Qed.

(** *** The handshake *)

Lemma Dial_short_read net_Dial rnd addr (conn conn1 : Conn) n err srvpub :
  net_Dial addr = inl conn ->
  io.Read conn (make keysz) = (n, err, srvpub, conn1) ->
  n < keysz ->
  d_rwc (Dial net_Dial rnd addr) = None /\
  d_err (Dial net_Dial rnd addr) <> None.
Proof.
  intros Hnet HR Hn.
  unfold Dial. rewrite Hnet, HR. cbv zeta beta iota.
  destruct err; [split; [reflexivity|discriminate]|].
  rewrite (short_not_keysz n Hn). split; [reflexivity|discriminate].
Qed.

Lemma Dial_short_write net_Dial rnd addr (conn conn1 conn2 : Conn)
    srvpub pub priv rnd1 n err :
  net_Dial addr = inl conn ->
  io.Read conn (make keysz) = (keysz, None, srvpub, conn1) ->
  box.GenerateKey rnd = (inl (pub, priv), rnd1) ->
  io.Write conn1 pub = (n, err, conn2) ->
  n < keysz ->
  d_rwc (Dial net_Dial rnd addr) = None /\
  d_err (Dial net_Dial rnd addr) <> None.
Proof.
  intros Hnet HR HG HW Hn.
  unfold Dial. rewrite Hnet, HR. cbv zeta beta iota.
  change (negb (keysz =? keysz)) with false. cbv iota.
  rewrite HG. cbv beta iota. rewrite HW. cbv beta iota.
  destruct err; [split; [reflexivity|discriminate]|].
  rewrite (short_not_keysz n Hn). split; [reflexivity|discriminate].
Qed.

Lemma handleConnection_short_write rnd (conn conn1 : Conn) pri pub n err :
  io.Write conn pub = (n, err, conn1) ->
  n < keysz ->
  h_swr (handleConnection rnd conn pri pub) = None /\
  closed (h_conn (handleConnection rnd conn pri pub)) = true.
Proof.
  intros HW Hn.
  unfold handleConnection. rewrite HW. cbv beta iota.
  destruct (io.Close conn1) as [e c] eqn:HC.
  apply Conn_Close_closed in HC.
  destruct err; [split; [reflexivity|exact HC]|].
  rewrite (short_not_keysz n Hn). split; [reflexivity|exact HC].
Qed.

Lemma handleConnection_short_read rnd (conn conn1 conn2 : Conn) pri pub
    n err clipub :
  io.Write conn pub = (keysz, None, conn1) ->
  io.Read conn1 (make keysz) = (n, err, clipub, conn2) ->
  n < keysz ->
  h_swr (handleConnection rnd conn pri pub) = None /\
  closed (h_conn (handleConnection rnd conn pri pub)) = true.
Proof.
  intros HW HR Hn.
  unfold handleConnection. rewrite HW. cbv zeta beta iota.
  change (negb (keysz =? keysz)) with false. cbv iota.
  rewrite HR. cbv beta iota.
  destruct (io.Close conn2) as [e c] eqn:HC.
  apply Conn_Close_closed in HC.
  destruct err; [split; [reflexivity|exact HC]|].
  rewrite (short_not_keysz n Hn). split; [reflexivity|exact HC].
Qed.

(** C5. A public-key read or write that transfers fewer than 32 bytes
    fails the handshake.  In [Dial] (the read of the server's key, the
    write of the client's key) the call returns an error and no
    ReadWriteCloser; in [handleConnection] (the write of the server's
    key, the read of the client's key) the connection is closed and the
    function returns; in no case is a secureReadWriter constructed. *)
Theorem handshake_exactness :
  (forall net_Dial rnd addr conn n err srvpub conn1,
     net_Dial addr = inl conn ->
     io.Read conn (make keysz) = (n, err, srvpub, conn1) ->
     n < keysz ->
     d_rwc (Dial net_Dial rnd addr) = None /\
     d_err (Dial net_Dial rnd addr) <> None) /\
  (forall net_Dial rnd addr conn srvpub conn1 pub priv rnd1 n err conn2,
     net_Dial addr = inl conn ->
     io.Read conn (make keysz) = (keysz, None, srvpub, conn1) ->
     box.GenerateKey rnd = (inl (pub, priv), rnd1) ->
     io.Write conn1 pub = (n, err, conn2) ->
     n < keysz ->
     d_rwc (Dial net_Dial rnd addr) = None /\
     d_err (Dial net_Dial rnd addr) <> None) /\
  (forall rnd conn pri pub n err conn1,
     io.Write conn pub = (n, err, conn1) ->
     n < keysz ->
     h_swr (handleConnection rnd conn pri pub) = None /\
     closed (h_conn (handleConnection rnd conn pri pub)) = true) /\
  (forall rnd conn pri pub conn1 n err clipub conn2,
     io.Write conn pub = (keysz, None, conn1) ->
     io.Read conn1 (make keysz) = (n, err, clipub, conn2) ->
     n < keysz ->
     h_swr (handleConnection rnd conn pri pub) = None /\
     closed (h_conn (handleConnection rnd conn pri pub)) = true).
Proof.
  split; [|split; [|split]]; intros.
  - eapply Dial_short_read; eauto.
  - eapply Dial_short_write; eauto.
  - eapply handleConnection_short_write; eauto.
  - eapply handleConnection_short_read; eauto.
Qed.

(** *** Serve *)

Lemma secureReader_Read_wr (sr : secureReader) (c c' : Conn) p n e p' :
  secureReader_Read sr c p = (n, e, p', c') -> wr c' = wr c.
Proof.
  unfold secureReader_Read; cbv zeta.
  destruct (length p =? 0); [intros E; inversion E; auto|].
  destruct (io.ReadFull c (make noncesz)) as [[[n1 e1] nonce] c1] eqn:HN.
  apply ReadFull_wr in HN.
  destruct e1; [intros E; inversion E; subst; auto|].
  destruct (negb (n1 =? noncesz)); [intros E; inversion E; subst; auto|].
  destruct (io.Read c1 (make (length p + box.Overhead)))
    as [[[n2 e2] enc] c2] eqn:HC.
  apply Conn_Read_wr in HC.
  destruct e2; [intros E; inversion E; subst; congruence|].
  destruct (box.OpenAfterPrecomputation (firstn n2 enc) nonce (sr_key sr)).
  - destruct (copy p l). intros E; inversion E; subst; congruence.
  - intros E; inversion E; subst; congruence.
Qed.

Lemma secureWriter_Write_extends (sw : secureWriter) rnd (c c' : Conn)
    p n e rnd' :
  secureWriter_Write sw rnd c p = (n, e, rnd', c') ->
  exists more, accepted (wr c') = accepted (wr c) ++ more.
Proof.
  assert (Hrefl : exists more, accepted (wr c) = accepted (wr c) ++ more)
    by (exists []; now rewrite app_nil_r).
  unfold secureWriter_Write; cbv zeta.
  destruct (length p =? 0); [intros E; inversion E; subst; auto|].
  destruct (rand.Read rnd (make noncesz)) as [[[n1 e1] nonce] rnd1].
  destruct e1; [intros E; inversion E; subst; auto|].
  destruct (negb (n1 =? noncesz)); [intros E; inversion E; subst; auto|].
  destruct (io.Write c nonce) as [[n2 e2] c1] eqn:HW1.
  apply Conn_Write_extends in HW1. destruct HW1 as [m1 HW1].
  destruct e2; [intros E; inversion E; subst; eauto|].
  destruct (negb (n2 =? noncesz)); [intros E; inversion E; subst; eauto|].
  destruct (io.Write c1 (box.SealAfterPrecomputation p nonce (sw_key sw)))
    as [[n3 e3] c2] eqn:HW2.
  apply Conn_Write_extends in HW2. destruct HW2 as [m2 HW2].
  intros E; inversion E; subst.
  exists (m1 ++ m2). rewrite HW2, HW1, app_assoc. reflexivity.
Qed.

(** A handler whose first write is taken by the connection has sent its
    [pub] argument as the first thing on the connection. *)
Lemma handleConnection_sends_key rnd (conn conn1 : Conn) pri pub n :
  io.Write conn pub = (n, None, conn1) ->
  server_key_sent conn (handleConnection rnd conn pri pub) = Some pub.
Proof.
  intros HW.
  assert (Hgoal : forall c : Conn,
    (exists more, accepted (wr c) = accepted (wr conn1) ++ more) ->
    nth_error (accepted (wr c)) (length (accepted (wr conn))) = Some pub).
  { intros c [more Hc]. apply Conn_Write_ok in HW. destruct HW as [_ HW].
    rewrite Hc, HW, <- app_assoc. rewrite nth_error_app2 by lia.
    rewrite Nat.sub_diag. reflexivity. }
  assert (Hclose : forall c c' e,
    (exists more, accepted (wr c) = accepted (wr conn1) ++ more) ->
    io.Close c = (e, c') ->
    exists more, accepted (wr c') = accepted (wr conn1) ++ more).
  { intros c c' e Hc HC. apply Conn_Close_wr in HC. rewrite HC. exact Hc. }
  assert (Hrefl :
    exists more, accepted (wr conn1) = accepted (wr conn1) ++ more)
    by (exists []; now rewrite app_nil_r).
  unfold server_key_sent, handleConnection. rewrite HW. cbv zeta beta iota.
  destruct (negb (n =? keysz)).
  { destruct (io.Close conn1) eqn:HC. simpl. eauto. }
  destruct (io.Read conn1 (make keysz)) as [[[n1 e1] clipub] conn2] eqn:HR.
  apply Conn_Read_wr in HR.
  assert (H2 : exists more,
    accepted (wr conn2) = accepted (wr conn1) ++ more)
    by (rewrite HR; exact Hrefl).
  destruct e1.
  { destruct (io.Close conn2) eqn:HC. simpl. eauto. }
  destruct (negb (n1 =? keysz)).
  { destruct (io.Close conn2) eqn:HC. simpl. eauto. }
  unfold secureReadWriter_Read, secureReadWriter_Write,
    secureReadWriter_Close.
  destruct (secureReader_Read (sr (NewSecureReadWriter pri clipub)) conn2
              (make 2048)) as [[[n2 e2] buf] conn3] eqn:HSR.
  apply secureReader_Read_wr in HSR.
  assert (H3 : exists more,
    accepted (wr conn3) = accepted (wr conn1) ++ more)
    by (rewrite HSR; exact H2).
  destruct (negb (is_nil e2) && negb (is_EOF e2)).
  { destruct (io.Close conn3) eqn:HC. simpl. eauto. }
  destruct (slice_to buf n2) as [msg|].
  - destruct (secureWriter_Write (sw (NewSecureReadWriter pri clipub)) rnd
                conn3 msg) as [[[n3 e3] rnd3] conn4] eqn:HSW.
    apply secureWriter_Write_extends in HSW. destruct HSW as [m4 HSW].
    destruct H3 as [m3 H3].
    assert (H4 : exists more,
      accepted (wr conn4) = accepted (wr conn1) ++ more).
    { exists (m3 ++ m4). rewrite HSW, H3, app_assoc. reflexivity. }
    destruct e3; destruct (io.Close conn4) eqn:HC; simpl; eauto.
  - destruct (io.Close conn3) eqn:HC. simpl. eauto.
Qed.

Lemma Serve_loop_map pending lerr priv pub :
  Serve_loop pending lerr priv pub
  = (lerr, map (fun cr => handleConnection (snd cr) (fst cr) priv pub)
               pending).
Proof.
  induction pending as [|[conn r] rest IH]; [reflexivity|].
  cbn [Serve_loop map fst snd]. rewrite IH. reflexivity.
Qed.

(** C2, as the program has it.  [Serve] generates one key pair, before
    its accept loop, and every accepted connection is handled with that
    same pair; every connection that takes the handler's first write is
    sent the same server public key. *)
Theorem Serve_one_key_pair (rnd rnd' : Source) (l : Listener)
    (pub priv : key) :
  box.GenerateKey rnd = (inl (pub, priv), rnd') ->
  Serve rnd l
  = (lerr l,
     map (fun cr => handleConnection (snd cr) (fst cr) priv pub)
         (pending l)) /\
  forall conn r n conn1,
    In (conn, r) (pending l) ->
    io.Write conn pub = (n, None, conn1) ->
    server_key_sent conn (handleConnection r conn priv pub) = Some pub.
Proof.
  intros HG. split.
  - unfold Serve. rewrite HG. apply Serve_loop_map.
  - intros conn r n conn1 _ HW.
    eapply handleConnection_sends_key; eauto.
Qed.

(** *** Under the laws of nacl/box *)

(** Sealing adds the 16 bytes of the authenticator. *)
Hypothesis Seal_length : box.seal_adds_overhead.

(** C9. A [Write] of the empty slice returns [(0, nil)] and leaves the
    sink (and [rand.Reader]) as they were.  A [Write] of [N > 0] bytes that
    returns no error has made the sink take exactly two buffers, a 24-byte
    nonce and then the (N+16)-byte sealed box of the whole plaintext, and
    returns [N]; the writer itself keeps nothing. *)
Theorem secureWriter_Write_one_frame
    (sw : secureWriter) (rnd : Source) (w : Sink) :
  secureWriter_Write sw rnd w [] = (0, None, rnd, w) /\
  forall p n rnd' w',
    p <> [] ->
    secureWriter_Write sw rnd w p = (n, None, rnd', w') ->
    exists nonce ciphertext,
      accepted w' = accepted w ++ [nonce; ciphertext] /\
      wire w' = wire w ++ nonce ++ ciphertext /\
      length nonce = noncesz /\
      ciphertext = box.SealAfterPrecomputation p nonce (sw_key sw) /\
      length ciphertext = length p + box.Overhead /\
      n = length p.
Proof.
  split; [reflexivity|].
  intros p n rnd' w' Hp E.
  destruct (secureWriter_Write_ok _ _ _ _ _ _ _ Hp E)
    as (nonce & _ & Hlen & Hacc & Hn).
  exists nonce, (box.SealAfterPrecomputation p nonce (sw_key sw)).
  rewrite Seal_length in *.
  repeat split; auto.
  - unfold wire. rewrite Hacc, concat_app. simpl.
    rewrite app_nil_r. reflexivity.
  - cbv zeta in Hn.
    assert (Hlt : (box.Overhead <? length p + box.Overhead) = true).
    { apply Nat.ltb_lt. destruct p; [congruence|simpl; lia]. }
    rewrite Hlt in Hn. lia.
Qed.

(** The two parties of an exchange of public keys precompute the same
    shared key. *)
Hypothesis Precompute_sym : box.agreement_symmetric.

(** C8. For key pairs as [box.GenerateKey] makes them, the shared key
    precomputed from [(privA, pubB)] is the one precomputed from
    [(privB, pubA)], so the reader made by
    [NewSecureReader(r, privB, pubA)] and the writer made by
    [NewSecureWriter(w, privA, pubB)] hold the same key. *)
Theorem key_symmetry (rndA rndB rndA' rndB' : Source)
    (pubA privA pubB privB : key) :
  box.GenerateKey rndA = (inl (pubA, privA), rndA') ->
  box.GenerateKey rndB = (inl (pubB, privB), rndB') ->
  box.Precompute pubB privA = box.Precompute pubA privB /\
  sr_key (NewSecureReader privB pubA) = sw_key (NewSecureWriter privA pubB).
Proof.
  unfold box.GenerateKey.
  destruct (io.ReadFull rndA (make 32)) as [[[? [?|]] a] ?];
    [discriminate|].
  destruct (io.ReadFull rndB (make 32)) as [[[? [?|]] b] ?];
    [discriminate|].
  intros EA EB. inversion EA; inversion EB; subst.
  unfold NewSecureReader, NewSecureWriter; simpl.
  rewrite Precompute_sym. split; reflexivity.
Qed.

(** A sealed box opens, under the same nonce and key, to its message. *)
Hypothesis Open_Seal : box.open_inverts_seal.

(** C1. Let a writer keyed with [(privA, pubB)] write the plaintext [P]
    to a fresh sink without error, and let a reader keyed with
    [(privB, pubA)] read from what the sink took, presented either write
    by write (an io.Pipe) or as one run of bytes.  If [P] fits the
    buffer, a single [Read] returns [len(P)] and the buffer starts with
    [P]; for a non-empty [P] the error is nil. *)
Theorem round_trip (privA privB : key) (rnd rnd' : Source)
    (s : list wresp) (w' : Sink) (P buf : list byte) (n : nat)
    (src : Source) :
  let pubA := box.ScalarBaseMult privA in
  let pubB := box.ScalarBaseMult privB in
  secureWriter_Write (NewSecureWriter privA pubB) rnd (mkSink [] s) P
    = (n, None, rnd', w') ->
  length P <= length buf ->
  src = pipe (accepted w') \/ src = pipe [wire w'] ->
  exists m err buf' src',
    secureReader_Read (NewSecureReader privB pubA) src buf
      = (m, err, buf', src') /\
    m = length P /\
    firstn m buf' = P /\
    (P <> [] -> err = None).
Proof.
  intros pubA pubB HW Hfit Hsrc.
  destruct P as [|x P'].
  - (* nothing was written *)
    cbn in HW. inversion HW; subst; clear HW.
    destruct buf as [|y buf'].
    + exists 0, None, [], src. repeat split; auto.
    + exists 0, (Some EOF), (y :: buf'), [].
      split; [|repeat split; auto; congruence].
      unfold secureReader_Read; cbv zeta. cbn [length Nat.eqb].
      rewrite (ReadFull_EOF src (make noncesz) (make noncesz) []);
        [reflexivity|discriminate|].
      destruct Hsrc; subst src; reflexivity.
  - set (P := x :: P') in *.
    assert (HP : P <> []) by discriminate.
    destruct (secureWriter_Write_ok _ _ _ _ _ _ _ HP HW)
      as (nonce & _ & Hnonce & Hacc & _).
    cbn [accepted app] in Hacc.
    set (key_w := sw_key (NewSecureWriter privA pubB)) in *.
    set (c := box.SealAfterPrecomputation P nonce key_w) in *.
    assert (Hc : length c = length P + box.Overhead) by apply Seal_length.
    assert (Hcne : c <> []).
    { intros Hnil. rewrite Hnil in Hc. unfold box.Overhead in Hc.
      simpl in Hc. lia. }
    assert (Hbuf : buf <> []).
    { intros ->. simpl in Hfit. lia. }
    assert (Hkey : sr_key (NewSecureReader privB pubA) = key_w).
    { unfold key_w, NewSecureReader, NewSecureWriter; simpl.
      apply Precompute_sym. }
    assert (HN : io.ReadFull src (make noncesz)
                 = (noncesz, None, nonce, [(c, None)])).
    { destruct Hsrc; subst src.
      - rewrite Hacc. cbn [pipe map].
        apply (ReadFull_exact nonce (make noncesz) [(c, None)]);
          [discriminate|exact Hnonce].
      - unfold wire. rewrite Hacc. cbn [pipe map concat].
        rewrite app_nil_r.
        apply (ReadFull_prefix nonce c (make noncesz) []);
          [discriminate|exact Hcne|exact Hnonce]. }
    exists (length P), None, (P ++ skipn (length P) buf), [].
    split; [|repeat split; auto].
    + unfold secureReader_Read; cbv zeta.
      rewrite (length_nonempty buf Hbuf), HN. cbv beta iota.
      rewrite Nat.eqb_refl. cbn [negb].
      rewrite Source_Read_unfold, Source_Read_chunk; auto.
      * rewrite firstn_app, firstn_all, Nat.sub_diag. cbn [firstn].
        rewrite app_nil_r, Hkey. unfold c. rewrite Open_Seal.
        unfold copy.
        replace (Nat.min (length buf) (length P)) with (length P) by lia.
        rewrite firstn_all. reflexivity.
      * unfold make. rewrite repeat_length. lia.
    + rewrite firstn_app, firstn_all, Nat.sub_diag. cbn [firstn].
      apply app_nil_r.
Qed.

(** A box that opens is 16 bytes longer than its message. *)
Hypothesis Open_length : box.open_removes_overhead.

(** C6, as the program has it.  A successful [Read] into a non-empty
    buffer [p] has read the nonce and a ciphertext [c] and opened [c] to a
    message [m] of at most [len(p)] bytes; [m] is copied whole to the front
    of [p] and its length is the count returned.  (The reader's only state
    is its key: nothing of [m] is kept for a later call.) *)
Theorem secureReader_Read_success
    (sr : secureReader) (r : Source) (p : list byte) n p' r' :
  p <> [] ->
  secureReader_Read sr r p = (n, None, p', r') ->
  exists nonce r1 enc c m,
    io.ReadFull r (make noncesz) = (noncesz, None, nonce, r1) /\
    io.Read r1 (make (length p + box.Overhead)) = (length c, None, enc, r') /\
    c = firstn (length c) enc /\
    box.OpenAfterPrecomputation c nonce (sr_key sr) = Some m /\
    length m <= length p /\
    n = length m /\
    p' = m ++ skipn (length m) p.
Proof.
  intros Hp.
  unfold secureReader_Read; cbv zeta.
  rewrite (length_nonempty p Hp).
  destruct (io.ReadFull r (make noncesz)) as [[[n1 e1] nonce] r1] eqn:HN.
  destruct e1; [congruence|].
  destruct (n1 =? noncesz) eqn:Hn1; cbn [negb]; [|congruence].
  apply Nat.eqb_eq in Hn1. subst n1.
  destruct (io.Read r1 (make (length p + box.Overhead)))
    as [[[n2 e2] enc] r2] eqn:HC.
  destruct e2; [congruence|].
  destruct (box.OpenAfterPrecomputation (firstn n2 enc) nonce (sr_key sr))
    as [m|] eqn:HO; [|congruence].
  pose proof HC as HS. rewrite Source_Read_unfold in HS.
  apply Source_Read_spec in HS. destruct HS as (Hlen & Hn2 & _ & _).
  unfold make in Hlen, Hn2. rewrite repeat_length in Hlen, Hn2.
  pose proof (Open_length _ _ _ _ HO) as Hm.
  rewrite length_firstn in Hm.
  assert (Hfn : length (firstn n2 enc) = n2)
    by (rewrite length_firstn; lia).
  unfold copy. intros E. inversion E; subst; clear E.
  exists nonce, r1, enc, (firstn n2 enc), m.
  rewrite Hfn.
  replace (Nat.min (length p) (length m)) with (length m) by lia.
  rewrite firstn_all.
  repeat split; auto. lia.
Qed.

(** *** Open connections *)

(** On a connection that is not closed, the calls of this program act on
    the connection's source and sink. *)
Lemma Conn_eta (c : Conn) :
  closed c = false -> c = mkConn (rd c) (wr c) false.
Proof. destruct c; simpl; intros ->; reflexivity. Qed.

Lemma Conn_Read_open (c : Conn) p :
  closed c = false ->
  io.Read c p
  = let '(n, e, p', r) := io.Read (rd c) p in
    (n, e, p', mkConn r (wr c) false).
Proof.
  intros Hc. unfold io.Read at 1, Conn_Reader, Conn_Read.
  rewrite Hc. reflexivity.
Qed.

Lemma Conn_Write_open (c : Conn) p :
  closed c = false ->
  io.Write c p
  = let '(n, e, w) := io.Write (wr c) p in (n, e, mkConn (rd c) w false).
Proof.
  intros Hc. unfold io.Write at 1, Conn_Writer, Conn_Write.
  rewrite Hc. reflexivity.
Qed.

Lemma Conn_ReadAtLeast_loop_open fuel :
  forall (c : Conn) buf min n err,
    closed c = false ->
    io.ReadAtLeast_loop fuel c buf min n err
    = let '(n', e', b', r) := io.ReadAtLeast_loop fuel (rd c) buf min n err in
      (n', e', b', mkConn r (wr c) false).
Proof.
  induction fuel as [|fuel IH]; intros c buf min n err Hc;
    cbn [io.ReadAtLeast_loop].
  - rewrite (Conn_eta c Hc) at 1. reflexivity.
  - destruct ((n <? min) && is_nil err).
    + rewrite (Conn_Read_open c _ Hc).
      destruct (io.Read (rd c) (skipn n buf)) as [[[nn e1] tl] r1].
      rewrite IH by reflexivity. reflexivity.
    + rewrite (Conn_eta c Hc) at 1. reflexivity.
Qed.

Lemma Conn_ReadFull_open (c : Conn) buf :
  closed c = false ->
  io.ReadFull c buf
  = let '(n, e, b, r) := io.ReadFull (rd c) buf in
    (n, e, b, mkConn r (wr c) false).
Proof.
  intros Hc. unfold io.ReadFull, io.ReadAtLeast.
  destruct (length buf <? length buf).
  - rewrite (Conn_eta c Hc) at 1. reflexivity.
  - rewrite (Conn_ReadAtLeast_loop_open _ c _ _ _ _ Hc).
    destruct (io.ReadAtLeast_loop (length buf) (rd c) buf (length buf) 0
                None) as [[[n e] b] r].
    reflexivity.
Qed.

Lemma secureReader_Read_open (sr : secureReader) (c : Conn) p :
  closed c = false ->
  secureReader_Read sr c p
  = let '(n, e, p', r) := secureReader_Read sr (rd c) p in
    (n, e, p', mkConn r (wr c) false).
Proof.
  intros Hc. unfold secureReader_Read; cbv zeta.
  destruct (length p =? 0).
  { rewrite (Conn_eta c Hc) at 1. reflexivity. }
  rewrite (Conn_ReadFull_open c _ Hc).
  destruct (io.ReadFull (rd c) (make noncesz)) as [[[n1 e1] nonce] r1].
  destruct e1; [reflexivity|].
  destruct (negb (n1 =? noncesz)); [reflexivity|].
  rewrite Conn_Read_open by reflexivity. cbn [rd wr].
  destruct (io.Read r1 (make (length p + box.Overhead)))
    as [[[n2 e2] enc] r2].
  destruct e2; [reflexivity|].
  destruct (box.OpenAfterPrecomputation (firstn n2 enc) nonce (sr_key sr));
    [|reflexivity].
  destruct (copy p l). reflexivity.
Qed.

Lemma secureWriter_Write_open (sw : secureWriter) rnd (c : Conn) p :
  closed c = false ->
  secureWriter_Write sw rnd c p
  = let '(n, e, rnd', w) := secureWriter_Write sw rnd (wr c) p in
    (n, e, rnd', mkConn (rd c) w false).
Proof.
  intros Hc. unfold secureWriter_Write; cbv zeta.
  destruct (length p =? 0).
  { rewrite (Conn_eta c Hc) at 1. reflexivity. }
  destruct (rand.Read rnd (make noncesz)) as [[[n1 e1] nonce] rnd1].
  destruct e1.
  { rewrite (Conn_eta c Hc) at 1. reflexivity. }
  destruct (negb (n1 =? noncesz)).
  { rewrite (Conn_eta c Hc) at 1. reflexivity. }
  rewrite (Conn_Write_open c _ Hc).
  destruct (io.Write (wr c) nonce) as [[n2 e2] w1].
  destruct e2; [reflexivity|].
  destruct (negb (n2 =? noncesz)); [reflexivity|].
  rewrite Conn_Write_open by reflexivity. cbn [rd wr].
  destruct (io.Write w1 (box.SealAfterPrecomputation p nonce (sw_key sw)))
    as [[n3 e3] w2].
  reflexivity.
Qed.

(** *** Frames, one after another *)

(** A reader at the start of a frame written for its key reads that frame
    and nothing of what follows it. *)
Lemma secureReader_Read_frame (sr : secureReader) nonce P buf
    (rest : Source) :
  length nonce = noncesz ->
  length P <= length buf ->
  buf <> [] ->
  secureReader_Read sr
    ((nonce, None)
     :: (box.SealAfterPrecomputation P nonce (sr_key sr), None) :: rest) buf
  = (length P, None, P ++ skipn (length P) buf, rest).
Proof.
  intros Hnonce Hfit Hbuf.
  set (c := box.SealAfterPrecomputation P nonce (sr_key sr)).
  assert (Hc : length c = length P + box.Overhead) by apply Seal_length.
  assert (Hcne : c <> []).
  { intros Hnil. rewrite Hnil in Hc. unfold box.Overhead in Hc.
    simpl in Hc. lia. }
  unfold secureReader_Read; cbv zeta.
  rewrite (length_nonempty buf Hbuf).
  rewrite (ReadFull_exact nonce (make noncesz)) by (discriminate || exact Hnonce).
  cbv beta iota. change (length (make noncesz)) with noncesz.
  rewrite Nat.eqb_refl. cbn [negb].
  rewrite Source_Read_unfold, Source_Read_chunk; auto.
  - rewrite firstn_app, firstn_all, Nat.sub_diag. cbn [firstn].
    rewrite app_nil_r. unfold c. rewrite Open_Seal.
    unfold copy.
    replace (Nat.min (length buf) (length P)) with (length P) by lia.
    rewrite firstn_all. reflexivity.
  - unfold make. rewrite repeat_length. lia.
Qed.

(** A writer whose [rand.Reader] hands out the 24 bytes [nonce] and whose
    sink takes everything writes the frame of [p] under [nonce]. *)
Lemma secureWriter_Write_accepted (sw : secureWriter) nonce (more : Source)
    acc p :
  length nonce = noncesz ->
  p <> [] ->
  secureWriter_Write sw ((nonce, None) :: more) (mkSink acc []) p
  = (length p, None, more,
     mkSink (acc ++ [nonce; box.SealAfterPrecomputation p nonce (sw_key sw)])
            []).
Proof.
  intros Hnonce Hp.
  unfold secureWriter_Write; cbv zeta.
  rewrite (length_nonempty p Hp).
  unfold rand.Read.
  rewrite (ReadFull_exact nonce (make noncesz)) by (discriminate || exact Hnonce).
  cbv beta iota. change (length (make noncesz)) with noncesz.
  rewrite Nat.eqb_refl. cbn [negb].
  unfold io.Write, Sink_Writer, Sink_Write. cbn [script accepted].
  rewrite Hnonce, Nat.eqb_refl. cbn [negb].
  rewrite Seal_length.
  assert (Hlt : (box.Overhead <? length p + box.Overhead) = true).
  { apply Nat.ltb_lt. destruct p; [congruence|simpl; lia]. }
  rewrite Hlt, Nat.add_sub, <- app_assoc. reflexivity.
Qed.

(** X3. Two successful [Write] calls, one after the other, use
    consecutive 24-byte draws of [rand.Reader] as their nonces: with a sink
    that takes everything, writing [p1] and then [p2] leaves on the sink
    the frame of [p1] under the first draw followed by the frame of [p2]
    under the second, and returns [len(p1)] and [len(p2)]. *)
Theorem secureWriter_Write_twice (sw : secureWriter) n1 n2
    (more : list (list byte)) acc p1 p2 :
  length n1 = noncesz -> length n2 = noncesz ->
  p1 <> [] -> p2 <> [] ->
  let k := sw_key sw in
  let w1 :=
    mkSink (acc ++ [n1; box.SealAfterPrecomputation p1 n1 k]) [] in
  secureWriter_Write sw (pipe (n1 :: n2 :: more)) (mkSink acc []) p1
  = (length p1, None, pipe (n2 :: more), w1) /\
  secureWriter_Write sw (pipe (n2 :: more)) w1 p2
  = (length p2, None, pipe more,
     mkSink (acc ++ [n1; box.SealAfterPrecomputation p1 n1 k;
                     n2; box.SealAfterPrecomputation p2 n2 k]) []).
Proof.
  intros H1 H2 Hp1 Hp2 k w1. split.
  - cbn [pipe map]. apply secureWriter_Write_accepted; assumption.
  - unfold w1. cbn [pipe map].
    rewrite secureWriter_Write_accepted by assumption.
    rewrite <- app_assoc. reflexivity.
Qed.

(** X2. A session of two messages over a pipe: when a writer has written
    [P1] and then [P2] without error to a fresh sink, a reader with the
    writer's key reads [P1] with its first [Read] and [P2] with its
    second, each into a buffer the message fits, and is then at the end of
    the stream. *)
Theorem session_of_two_messages (sw : secureWriter) (sr : secureReader)
    (rnd rnd1 rnd2 : Source) (s : list wresp) (w1 w2 : Sink)
    (P1 P2 buf1 buf2 : list byte) (n1 n2 : nat) :
  sr_key sr = sw_key sw ->
  P1 <> [] -> P2 <> [] ->
  length P1 <= length buf1 -> length P2 <= length buf2 ->
  secureWriter_Write sw rnd (mkSink [] s) P1 = (n1, None, rnd1, w1) ->
  secureWriter_Write sw rnd1 w1 P2 = (n2, None, rnd2, w2) ->
  exists src1,
    secureReader_Read sr (pipe (accepted w2)) buf1
    = (length P1, None, P1 ++ skipn (length P1) buf1, src1) /\
    secureReader_Read sr src1 buf2
    = (length P2, None, P2 ++ skipn (length P2) buf2, []).
Proof.
  intros Hkey HP1 HP2 Hfit1 Hfit2 HW1 HW2.
  destruct (secureWriter_Write_ok _ _ _ _ _ _ _ HP1 HW1)
    as (nA & _ & HnA & HaccA & _).
  destruct (secureWriter_Write_ok _ _ _ _ _ _ _ HP2 HW2)
    as (nB & _ & HnB & HaccB & _).
  cbn [accepted app] in HaccA. rewrite HaccA in HaccB.
  rewrite HaccB, <- Hkey. cbn [pipe map app].
  assert (Hb1 : buf1 <> []) by (intros ->; destruct P1; simpl in *; [congruence|lia]).
  assert (Hb2 : buf2 <> []) by (intros ->; destruct P2; simpl in *; [congruence|lia]).
  eexists. split.
  - apply secureReader_Read_frame; assumption.
  - apply secureReader_Read_frame; assumption.
Qed.

(** *** What reaches the wire *)

Lemma firstn_app_short {A} (k : nat) (a b : list A) :
  k <= length a -> firstn k (a ++ b) = firstn k a.
Proof.
  intros Hk. rewrite firstn_app.
  replace (k - length a) with 0 by lia. cbn [firstn]. apply app_nil_r.
Qed.

(** X4. Whatever a [Write] does and however it ends, the bytes it adds to
    the sink are the first bytes of one frame: of the nonce it drew from
    [rand.Reader] followed by the sealed box of [p] under that nonce.  A
    call that fails before it has a nonce adds nothing. *)
Theorem secureWriter_Write_adds_frame_prefix
    (sw : secureWriter) (rnd rnd' : Source) (w w' : Sink) (p : list byte)
    n err :
  secureWriter_Write sw rnd w p = (n, err, rnd', w') ->
  exists nonce k,
    wire w'
    = wire w
      ++ firstn k (nonce
                   ++ box.SealAfterPrecomputation p nonce (sw_key sw)) /\
    (k = 0 \/ rand.Read rnd (make noncesz) = (noncesz, None, nonce, rnd')).
Proof.
  assert (Hnone : forall nonce : list byte,
    wire w
    = wire w
      ++ firstn 0 (nonce
                   ++ box.SealAfterPrecomputation p nonce (sw_key sw)))
    by (intros; cbn [firstn]; now rewrite app_nil_r).
  unfold secureWriter_Write; cbv zeta.
  destruct (length p =? 0).
  { intros E; inversion E; subst. exists [], 0. auto. }
  destruct (rand.Read rnd (make noncesz)) as [[[n1 e1] nonce] rnd1] eqn:HR.
  destruct e1.
  { intros E; inversion E; subst. exists [], 0. auto. }
  destruct (n1 =? noncesz) eqn:Hn1; cbn [negb].
  2:{ intros E; inversion E; subst. exists [], 0. auto. }
  apply Nat.eqb_eq in Hn1. subst n1.
  destruct (io.Write w nonce) as [[n2 e2] w1] eqn:HW1.
  pose proof (Sink_Write_spec _ _ _ _ _ HW1) as [Hn2 Hacc1].
  assert (Hshort :
    wire w1
    = wire w
      ++ firstn n2 (nonce
                    ++ box.SealAfterPrecomputation p nonce (sw_key sw))).
  { unfold wire. rewrite Hacc1, concat_app. cbn [concat].
    rewrite app_nil_r, firstn_app_short by exact Hn2. reflexivity. }
  destruct e2.
  { intros E; inversion E; subst. eexists _, _; split; [exact Hshort|auto]. }
  destruct (negb (n2 =? noncesz)).
  { intros E; inversion E; subst. eexists _, _; split; [exact Hshort|auto]. }
  apply Sink_Write_ok in HW1. destruct HW1 as [_ Hfull].
  destruct (io.Write w1 (box.SealAfterPrecomputation p nonce (sw_key sw)))
    as [[n3 e3] w2] eqn:HW2.
  apply Sink_Write_spec in HW2. destruct HW2 as [Hn3 Hacc2].
  intros E; inversion E; subst.
  exists nonce, (length nonce + n3). split; [|auto].
  unfold wire. rewrite Hacc2, Hfull, !concat_app. cbn [concat].
  rewrite !app_nil_r, <- app_assoc. f_equal.
  rewrite firstn_app.
  rewrite (@firstn_all2 _ (length nonce + n3) nonce) by lia.
  replace (length nonce + n3 - length nonce) with n3 by lia.
  reflexivity.
Qed.

(** *** Dial *)

Lemma Conn_Read_closed (c c' : Conn) p n e p' :
  io.Read c p = (n, e, p', c') -> closed c' = closed c.
Proof.
  unfold io.Read at 1, Conn_Reader, Conn_Read.
  destruct (closed c) eqn:Hc; [intros E; inversion E; subst; auto|].
  destruct (io.Read (rd c) p) as [[[? ?] ?] ?].
  intros E; inversion E; auto.
Qed.

Lemma Conn_Write_closed (c c' : Conn) p n e :
  io.Write c p = (n, e, c') -> closed c' = closed c.
Proof.
  unfold io.Write at 1, Conn_Writer, Conn_Write.
  destruct (closed c) eqn:Hc; [intros E; inversion E; subst; auto|].
  destruct (io.Write (wr c) p) as [[? ?] ?].
  intros E; inversion E; auto.
Qed.

(** X5. [Dial] returns either a ReadWriteCloser or an error, never both
    and never neither. *)
Theorem Dial_channel_or_error net_Dial (rnd : Source) (addr : string) :
  d_rwc (Dial net_Dial rnd addr) = None
  <-> d_err (Dial net_Dial rnd addr) <> None.
Proof.
  unfold Dial.
  destruct (net_Dial addr) as [conn|e0]; [|simpl; split; congruence].
  cbv zeta.
  destruct (io.Read conn (make keysz)) as [[[n e1] srvpub] conn1].
  destruct e1; [simpl; split; congruence|].
  destruct (negb (n =? keysz)); [simpl; split; congruence|].
  destruct (box.GenerateKey rnd) as [[[pub priv]|e2] rnd1];
    [|simpl; split; congruence].
  destruct (io.Write conn1 pub) as [[n2 e3] conn2].
  destruct e3; [simpl; split; congruence|].
  destruct (negb (n2 =? keysz)); simpl; split; congruence.
Qed.

(** X6. Whatever happens in the handshake, [Dial] never closes the
    connection net.Dial gave it and prints nothing: its deferred function
    tests the error as it was when the [defer] statement ran, which is
    nil. *)
Theorem Dial_never_closes net_Dial (rnd : Source) (addr : string)
    (conn : Conn) :
  net_Dial addr = inl conn ->
  exists c,
    d_conn (Dial net_Dial rnd addr) = Some c /\
    closed c = closed conn /\
    d_out (Dial net_Dial rnd addr) = [].
Proof.
  intros Hnet. unfold Dial. rewrite Hnet. cbv zeta.
  destruct (io.Read conn (make keysz)) as [[[n e1] srvpub] conn1] eqn:HR.
  apply Conn_Read_closed in HR.
  destruct e1; [simpl; eauto|].
  destruct (negb (n =? keysz)); [simpl; eauto|].
  destruct (box.GenerateKey rnd) as [[[pub priv]|e2] rnd1];
    [|simpl; eauto].
  destruct (io.Write conn1 pub) as [[n2 e3] conn2] eqn:HW.
  apply Conn_Write_closed in HW.
  assert (closed conn2 = closed conn) by congruence.
  destruct e3; [simpl; eauto|].
  destruct (negb (n2 =? keysz)); simpl; eauto.
Qed.

Lemma Dial_handshake_done net_Dial (rnd rnd1 : Source) (addr : string)
    (conn conn1 conn2 : Conn) (srvpub pub priv : key) :
  net_Dial addr = inl conn ->
  io.Read conn (make keysz) = (keysz, None, srvpub, conn1) ->
  box.GenerateKey rnd = (inl (pub, priv), rnd1) ->
  io.Write conn1 pub = (keysz, None, conn2) ->
  Dial net_Dial rnd addr
  = mkDialed (Some (NewSecureReadWriter priv srvpub)) None (Some conn2)
             rnd1 [].
Proof.
  intros Hnet HR HG HW.
  unfold Dial. rewrite Hnet, HR. cbv zeta beta iota.
  change (negb (keysz =? keysz)) with false. cbv iota.
  rewrite HG. cbv beta iota. rewrite HW. cbv beta iota.
  change (negb (keysz =? keysz)) with false. reflexivity.
Qed.

(** X7. When net.Dial connects, the read of the server's key and the
    write of the client's key each transfer 32 bytes without error and a
    key pair is generated, [Dial] returns, with a nil error, a
    secureReadWriter whose writer and reader are both keyed with the
    client's private key and the key read from the server. *)
Theorem Dial_success net_Dial (rnd rnd1 : Source) (addr : string)
    (conn conn1 conn2 : Conn) (srvpub pub priv : key) :
  net_Dial addr = inl conn ->
  io.Read conn (make keysz) = (keysz, None, srvpub, conn1) ->
  box.GenerateKey rnd = (inl (pub, priv), rnd1) ->
  io.Write conn1 pub = (keysz, None, conn2) ->
  Dial net_Dial rnd addr
  = mkDialed (Some (NewSecureReadWriter priv srvpub)) None (Some conn2)
             rnd1 [] /\
  sw_key (sw (NewSecureReadWriter priv srvpub)) = box.Precompute srvpub priv /\
  sr_key (sr (NewSecureReadWriter priv srvpub)) = box.Precompute srvpub priv.
Proof.
  intros Hnet HR HG HW.
  split; [|split; reflexivity].
  eapply Dial_handshake_done; eassumption.
Qed.

(** *** handleConnection *)

(** X8. Every run of [handleConnection] ends with the connection closed:
    on each failure of the handshake by the call of [conn.Close], after
    it by the deferred [swr.Close], also when the goroutine panics. *)
Theorem handleConnection_closes (rnd : Source) (conn : Conn)
    (pri pub : key) :
  closed (h_conn (handleConnection rnd conn pri pub)) = true.
Proof.
  assert (Hclose : forall (c : Conn) r out s b,
    closed (h_conn (let '(_, c') := io.Close c in mkHandled c' r out s b))
    = true).
  { intros c r out s b. destruct (io.Close c) as [e c'] eqn:HC.
    apply Conn_Close_closed in HC. exact HC. }
  unfold handleConnection.
  destruct (io.Write conn pub) as [[n e] conn1].
  destruct e; [apply Hclose|].
  destruct (negb (n =? keysz)); [apply Hclose|].
  cbv zeta.
  destruct (io.Read conn1 (make keysz)) as [[[n1 e1] clipub] conn2].
  destruct e1; [apply Hclose|].
  destruct (negb (n1 =? keysz)); [apply Hclose|].
  unfold secureReadWriter_Close.
  destruct (secureReadWriter_Read (NewSecureReadWriter pri clipub) conn2
              (make 2048)) as [[[n2 e2] buf] conn3].
  destruct (negb (is_nil e2) && negb (is_EOF e2)); [apply Hclose|].
  destruct (slice_to buf n2) as [msg|]; [|apply Hclose].
  destruct (secureReadWriter_Write (NewSecureReadWriter pri clipub) rnd
              conn3 msg) as [[[n3 e3] rnd3] conn4].
  destruct e3; apply Hclose.
Qed.

Lemma slice_to_app (P t : list byte) :
  slice_to (P ++ t) (length P) = Some P.
Proof.
  unfold slice_to.
  assert (Hle : (length P <=? length (P ++ t)) = true)
    by (apply Nat.leb_le; rewrite length_app; lia).
  rewrite Hle, firstn_app, firstn_all, Nat.sub_diag. cbn [firstn].
  now rewrite app_nil_r.
Qed.

Lemma length_make (n : nat) : length (make n) = n.
Proof. apply repeat_length. Qed.

Lemma make_nonempty (n : nat) : 0 < n -> make n <> [].
Proof. destruct n; [lia|discriminate]. Qed.

(** One [Read] of a whole 32-byte key that the peer sent in one piece. *)
Lemma Read_key (k : list byte) (rest : Source) (w : Sink) :
  length k = keysz ->
  io.Read (mkConn ((k, None) :: rest) w false) (make keysz)
  = (keysz, None, k, mkConn rest w false).
Proof.
  intros Hk. rewrite Conn_Read_open by reflexivity. cbn [rd wr].
  rewrite Source_Read_unfold, Source_Read_chunk.
  - rewrite Hk. change keysz with (length (make keysz)) at 2.
    rewrite skipn_all, app_nil_r. reflexivity.
  - intros ->. discriminate.
  - rewrite Hk, length_make. lia.
Qed.

(** The run of a handler whose client keeps to the protocol. *)
Lemma handleConnection_echo_run
    (pri pub clipub nonce_c nonce_s msg : list byte) (rest more : Source)
    (acc : list (list byte)) :
  length pub = keysz -> length clipub = keysz ->
  length nonce_c = noncesz -> length nonce_s = noncesz ->
  msg <> [] -> length msg <= 2048 ->
  let k := box.Precompute clipub pri in
  handleConnection ((nonce_s, None) :: more)
    (mkConn ((clipub, None) :: (nonce_c, None)
             :: (box.SealAfterPrecomputation msg nonce_c k, None) :: rest)
            (mkSink acc []) false)
    pri pub
  = mkHandled
      (mkConn rest
         (mkSink (acc ++ [pub; nonce_s;
                          box.SealAfterPrecomputation msg nonce_s k]) [])
         true)
      more [] (Some (NewSecureReadWriter pri clipub)) false.
Proof.
  intros Hpub Hcli Hnc Hns Hmsg Hlen k.
  unfold handleConnection.
  rewrite Conn_Write_open by reflexivity. cbn [rd wr].
  unfold io.Write at 1, Sink_Writer, Sink_Write. cbn [script accepted].
  rewrite Hpub. change (negb (keysz =? keysz)) with false.
  cbv beta iota zeta.
  rewrite Read_key by exact Hcli.
  cbv beta iota. change (negb (keysz =? keysz)) with false. cbv iota.
  unfold secureReadWriter_Read, secureReadWriter_Write,
    secureReadWriter_Close.
  rewrite secureReader_Read_open by reflexivity. cbn [rd wr].
  change (sr (NewSecureReadWriter pri clipub))
    with (NewSecureReader pri clipub).
  change k with (sr_key (NewSecureReader pri clipub)).
  rewrite secureReader_Read_frame;
    [|exact Hnc|rewrite length_make; exact Hlen|apply make_nonempty; lia].
  cbv beta iota. cbn [is_nil negb andb].
  rewrite slice_to_app.
  rewrite secureWriter_Write_open by reflexivity. cbn [rd wr].
  rewrite secureWriter_Write_accepted by assumption.
  cbv beta iota.
  unfold io.Close, Conn_Closer, Conn_Close. cbn [closed rd wr].
  rewrite <- app_assoc. reflexivity.
Qed.

(** X9. The echo.  A client that completes the handshake by sending its
    32-byte public key and then sends one frame, a message of 1 to 2048
    bytes sealed under the key the server precomputes from that public
    key, is answered with exactly one frame: the same message sealed
    under the same key and a nonce fresh from [rand.Reader].  The handler
    then closes the connection; it prints nothing and does not panic. *)
Theorem handleConnection_echo
    (pri pub clipub nonce_c nonce_s msg : list byte) (rest more : Source)
    (acc : list (list byte)) :
  length pub = keysz -> length clipub = keysz ->
  length nonce_c = noncesz -> length nonce_s = noncesz ->
  msg <> [] -> length msg <= 2048 ->
  let k := box.Precompute clipub pri in
  handleConnection ((nonce_s, None) :: more)
    (mkConn ((clipub, None) :: (nonce_c, None)
             :: (box.SealAfterPrecomputation msg nonce_c k, None) :: rest)
            (mkSink acc []) false)
    pri pub
  = mkHandled
      (mkConn rest
         (mkSink (acc ++ [pub; nonce_s;
                          box.SealAfterPrecomputation msg nonce_s k]) [])
         true)
      more [] (Some (NewSecureReadWriter pri clipub)) false.
Proof.
  intros. apply handleConnection_echo_run; assumption.
Qed.

(** *** The echo, end to end *)

Lemma length_list_byte_of_string (s : string) :
  length (list_byte_of_string s) = String.length s.
Proof.
  unfold list_byte_of_string. rewrite length_map.
  induction s as [|a s IH]; [reflexivity|].
  cbn [list_ascii_of_string String.length length]. f_equal. exact IH.
Qed.

Lemma list_byte_of_string_nonempty (s : string) :
  s <> EmptyString -> list_byte_of_string s <> [].
Proof. destruct s; [congruence|discriminate]. Qed.

(** [box.GenerateKey] when [rand.Reader] hands out 32 bytes at once. *)
Lemma GenerateKey_drawn (priv : list byte) (more : Source) :
  length priv = 32 ->
  box.GenerateKey ((priv, None) :: more)
  = (inl (box.ScalarBaseMult priv, priv), more).
Proof.
  intros Hp. unfold box.GenerateKey.
  rewrite (ReadFull_exact priv (make 32)) by (discriminate || exact Hp).
  reflexivity.
Qed.

(** X10. The echo, end to end, with [main] on both sides.  The server
    process ([-l port]) draws its private key and one nonce from
    [rand.Reader] and accepts one connection; the client process
    ([prog port message], a message of 1 to 2048 bytes) draws its private
    key and one nonce.  What each side writes is what the other side
    reads: the server's handler ends having written its public key and one
    frame, the client ends having written its public key and one frame,
    and the client prints exactly [message].  The server process ends in
    [log.Fatal] with the listener's error. *)
Theorem echo_end_to_end
    (srv_priv cli_priv nonce_c nonce_s : list byte)
    (message prog port_arg : string) (port : Z) (Args_s : list string)
    (stop : error) net_Listen net_Dial net_Listen_c net_Dial_s :
  public_keys_are_keysz ->
  length srv_priv = 32 -> length cli_priv = 32 ->
  length nonce_c = noncesz -> length nonce_s = noncesz ->
  message <> EmptyString -> String.length message <= 2048 ->
  port <> 0%Z ->
  let srv_pub := box.ScalarBaseMult srv_priv in
  let cli_pub := box.ScalarBaseMult cli_priv in
  let k := box.Precompute cli_pub srv_priv in
  let msg := list_byte_of_string message in
  let to_server :=
    [cli_pub; nonce_c; box.SealAfterPrecomputation msg nonce_c k] in
  let to_client :=
    [srv_pub; nonce_s; box.SealAfterPrecomputation msg nonce_s k] in
  net_Listen port
  = inl (mkListener
           [(mkConn (pipe to_server) (mkSink [] []) false, pipe [nonce_s])]
           stop) ->
  net_Dial (String.append "localhost:" port_arg)
  = inl (mkConn (pipe to_client) (mkSink [] []) false) ->
  main port Args_s net_Listen net_Dial_s (pipe [srv_priv])
  = mkRan (Some (Fatal stop)) None false None
      [mkHandled (mkConn [] (mkSink to_client []) true) [] []
                 (Some (NewSecureReadWriter srv_priv cli_pub)) false] /\
  main 0 [prog; port_arg; message] net_Listen_c net_Dial
       (pipe [cli_priv; nonce_c])
  = mkRan None (Some msg) false
      (Some (mkConn [] (mkSink to_server []) false)) [].
Proof.
  intros Hsize Hsp Hcp Hnc Hns Hmsg Hlen Hport
         srv_pub cli_pub k msg to_server to_client Hlisten Hdial.
  assert (Hmsgne : msg <> []) by (apply list_byte_of_string_nonempty, Hmsg).
  assert (Hmsglen : length msg = String.length message)
    by apply length_list_byte_of_string.
  assert (Hk : box.Precompute srv_pub cli_priv
               = box.Precompute cli_pub srv_priv)
    by apply Precompute_sym.
  subst k to_server to_client. cbn [pipe map] in *.
  split.
  - unfold main.
    assert (Hp : (port =? 0)%Z = false) by (apply Z.eqb_neq, Hport).
    rewrite Hp. cbn [negb]. rewrite Hlisten.
    unfold Serve. cbn [pipe map].
    rewrite GenerateKey_drawn by exact Hsp.
    cbn [pending lerr Serve_loop].
    rewrite handleConnection_echo_run
      by first [assumption | apply Hsize | lia].
    reflexivity.
  - unfold main. cbn [Z.eqb negb].
    rewrite (Dial_handshake_done net_Dial _ [(nonce_c, None)] _ _
               (mkConn [(nonce_s, None);
                        (box.SealAfterPrecomputation msg nonce_s
                           (box.Precompute cli_pub srv_priv), None)]
                       (mkSink [] []) false)
               (mkConn [(nonce_s, None);
                        (box.SealAfterPrecomputation msg nonce_s
                           (box.Precompute cli_pub srv_priv), None)]
                       (mkSink [cli_pub] []) false)
               srv_pub cli_pub cli_priv Hdial).
    + cbn [d_err d_rwc d_conn d_rand].
      unfold secureReadWriter_Write, secureReadWriter_Read.
      rewrite secureWriter_Write_open by reflexivity. cbn [rd wr].
      rewrite secureWriter_Write_accepted by assumption.
      cbv beta iota.
      rewrite secureReader_Read_open by reflexivity. cbn [rd wr].
      change (sw_key (sw (NewSecureReadWriter cli_priv srv_pub)))
        with (box.Precompute srv_pub cli_priv).
      change (sr (NewSecureReadWriter cli_priv srv_pub))
        with (NewSecureReader cli_priv srv_pub).
      rewrite Hk.
      replace (box.Precompute cli_pub srv_priv)
        with (sr_key (NewSecureReader cli_priv srv_pub)) at 1
        by exact Hk.
      rewrite secureReader_Read_frame;
        [|exact Hns|rewrite length_make; lia
         |apply make_nonempty; destruct message; [congruence|simpl; lia]].
      cbv beta iota. cbn [is_nil negb andb].
      rewrite slice_to_app. reflexivity.
    + apply Read_key, Hsize.
    + apply GenerateKey_drawn, Hcp.
    + rewrite Conn_Write_open by reflexivity. cbn [rd wr].
      unfold io.Write, Sink_Writer, Sink_Write. cbn [script accepted app].
      unfold cli_pub at 1. rewrite Hsize. reflexivity.
Qed.

(** *** Hanging up, and use after Close *)

(** X11. A client that hangs up right after the handshake (the stream
    ends where a frame would begin) is not treated as an error: the
    handler takes the [io.EOF] of its [Read] as an empty message, writes
    no frame, prints nothing and closes the connection, having sent only
    its public key. *)
Theorem handleConnection_client_hangs_up
    (rnd : Source) (pri pub clipub : list byte) (acc : list (list byte)) :
  length pub = keysz -> length clipub = keysz ->
  handleConnection rnd
    (mkConn [(clipub, None)] (mkSink acc []) false) pri pub
  = mkHandled (mkConn [] (mkSink (acc ++ [pub]) []) true) rnd []
              (Some (NewSecureReadWriter pri clipub)) false.
Proof.
  intros Hpub Hcli.
  unfold handleConnection.
  rewrite Conn_Write_open by reflexivity. cbn [rd wr].
  unfold io.Write at 1, Sink_Writer, Sink_Write. cbn [script accepted].
  rewrite Hpub. change (negb (keysz =? keysz)) with false.
  cbv beta iota zeta.
  rewrite Read_key by exact Hcli.
  cbv beta iota. change (negb (keysz =? keysz)) with false. cbv iota.
  unfold secureReadWriter_Read, secureReadWriter_Write,
    secureReadWriter_Close.
  rewrite secureReader_Read_open by reflexivity. cbn [rd wr].
  unfold secureReader_Read at 1; cbv zeta.
  rewrite (length_nonempty (make 2048)) by (apply make_nonempty; lia).
  rewrite (ReadFull_EOF (@nil (list byte * option error)) (make noncesz)
             (make noncesz) [])
    by (discriminate || reflexivity).
  cbv beta iota. cbn [is_nil is_EOF negb andb].
  unfold slice_to. cbn [Nat.leb firstn].
  unfold secureWriter_Write. cbn [length Nat.eqb].
  unfold io.Close, Conn_Closer, Conn_Close. cbn [closed rd wr].
  reflexivity.
Qed.

Lemma ReadFull_closed (c : Conn) (buf : list byte) :
  closed c = true -> buf <> [] ->
  io.ReadFull c buf = (0, Some ErrClosed, buf, c).
Proof.
  intros Hc Hbuf.
  unfold io.ReadFull, io.ReadAtLeast. rewrite Nat.ltb_irrefl.
  destruct (length buf) as [|k] eqn:HL;
    [destruct buf; [congruence|discriminate]|].
  rewrite ReadAtLeast_loop_step by lia.
  unfold io.Read at 1, Conn_Reader, Conn_Read. rewrite Hc.
  cbn [skipn firstn app Nat.add].
  destruct k; reflexivity.
Qed.

(** X12. After [Close], a [Read] into a non-empty buffer and a [Write] of
    a non-empty slice both return 0 and an error (for [Read] the error
    of the closed connection itself), leave the caller's buffer as it was
    and put nothing on the wire. *)
Theorem secureReadWriter_use_after_Close (srw : secureReadWriter)
    (rnd : Source) (rwc : Conn) (p : list byte) :
  p <> [] ->
  let closed_rwc := snd (secureReadWriter_Close srw rwc) in
  secureReadWriter_Read srw closed_rwc p
  = (0, Some ErrClosed, p, closed_rwc) /\
  exists e rnd',
    secureReadWriter_Write srw rnd closed_rwc p
    = (0, Some e, rnd', closed_rwc).
Proof.
  intros Hp closed_rwc.
  assert (Hc : closed closed_rwc = true).
  { unfold closed_rwc, secureReadWriter_Close.
    destruct (io.Close rwc) as [e c'] eqn:HC.
    apply Conn_Close_closed in HC. exact HC. }
  clearbody closed_rwc. split.
  - unfold secureReadWriter_Read, secureReader_Read; cbv zeta.
    rewrite (length_nonempty p Hp).
    rewrite ReadFull_closed by (exact Hc || discriminate).
    reflexivity.
  - unfold secureReadWriter_Write, secureWriter_Write; cbv zeta.
    rewrite (length_nonempty p Hp).
    destruct (rand.Read rnd (make noncesz)) as [[[n1 e1] nonce] rnd1].
    destruct e1; [eauto|].
    destruct (negb (n1 =? noncesz)); [eauto|].
    unfold io.Write at 1, Conn_Writer, Conn_Write. rewrite Hc.
    eauto.
Qed.

(** *** No panic in the handler *)









(** *** The counts returned *)

(** X14. The count [Write] returns is never more than the larger of
    [len(p)] and 24: it exceeds [len(p)] only by counting bytes of a nonce
    or of an authenticator that the sink took before it failed. *)
Theorem secureWriter_Write_count_bound
    (sw : secureWriter) (rnd rnd' : Source) (w w' : Sink) (p : list byte)
    n err :
  secureWriter_Write sw rnd w p = (n, err, rnd', w') ->
  n <= Nat.max (length p) noncesz.
Proof.
  unfold secureWriter_Write; cbv zeta.
  destruct (length p =? 0); [intros E; inversion E; lia|].
  destruct (rand.Read rnd (make noncesz)) as [[[n1 e1] nonce] rnd1] eqn:HR.
  unfold rand.Read in HR. apply ReadFull_spec in HR.
  destruct HR as (Hlen & _). rewrite length_make in Hlen.
  destruct e1; [intros E; inversion E; lia|].
  destruct (negb (n1 =? noncesz)); [intros E; inversion E; lia|].
  destruct (io.Write w nonce) as [[n2 e2] w1] eqn:HW1.
  apply Sink_Write_spec in HW1. destruct HW1 as [Hn2 _].
  destruct e2; [intros E; inversion E; subst; lia|].
  destruct (negb (n2 =? noncesz)); [intros E; inversion E; lia|].
  destruct (io.Write w1 (box.SealAfterPrecomputation p nonce (sw_key sw)))
    as [[n3 e3] w2] eqn:HW2.
  apply Sink_Write_spec in HW2. destruct HW2 as [Hn3 _].
  rewrite Seal_length in Hn3.
  intros E; inversion E; subst.
  unfold box.Overhead, noncesz in *.
  destruct (16 <? n3) eqn:Hlt;
    [apply Nat.ltb_lt in Hlt|apply Nat.ltb_ge in Hlt]; lia.
Qed.

(** X15. The count [Read] returns is never more than the larger of 24
    and [len(p) + 16], the sizes of the two reads it makes of the
    underlying source. *)
Theorem secureReader_Read_count_bound
    (sr : secureReader) (r r' : Source) (p p' : list byte) n err :
  secureReader_Read sr r p = (n, err, p', r') ->
  n <= Nat.max noncesz (length p + box.Overhead).
Proof.
  unfold secureReader_Read; cbv zeta.
  destruct (length p =? 0); [intros E; inversion E; lia|].
  destruct (io.ReadFull r (make noncesz)) as [[[n1 e1] nonce] r1] eqn:HN.
  apply ReadFull_spec in HN. destruct HN as (_ & Hn1 & _).
  rewrite length_make in Hn1.
  destruct e1; [intros E; inversion E; subst; lia|].
  destruct (negb (n1 =? noncesz)); [intros E; inversion E; subst; lia|].
  destruct (io.Read r1 (make (length p + box.Overhead)))
    as [[[n2 e2] enc] r2] eqn:HC.
  rewrite Source_Read_unfold in HC. apply Source_Read_spec in HC.
  destruct HC as (_ & Hn2 & _). rewrite length_make in Hn2.
  destruct e2; [intros E; inversion E; subst; lia|].
  destruct (box.OpenAfterPrecomputation (firstn n2 enc) nonce (sr_key sr)).
  - unfold copy. intros E; inversion E; subst. lia.
  - intros E; inversion E; subst. lia.
Qed.

(** *** How much is sent *)

Lemma Conn_Write_appends (c c' : Conn) p n e :
  io.Write c p = (n, e, c') ->
  exists more,
    accepted (wr c') = accepted (wr c) ++ more /\ length more <= 1.
Proof.
  unfold io.Write at 1, Conn_Writer, Conn_Write.
  destruct (closed c).
  - intros E; inversion E; subst. exists [].
    rewrite app_nil_r. split; [reflexivity|simpl; lia].
  - destruct (io.Write (wr c) p) as [[n1 e1] w1] eqn:HW.
    intros E; inversion E; subst; cbn [wr].
    apply Sink_Write_spec in HW. destruct HW as [_ HW].
    eexists. split; [exact HW|simpl; lia].
Qed.

Lemma secureWriter_Write_appends (sw : secureWriter) rnd (c c' : Conn)
    p n e rnd' :
  secureWriter_Write sw rnd c p = (n, e, rnd', c') ->
  exists more,
    accepted (wr c') = accepted (wr c) ++ more /\ length more <= 2.
Proof.
  assert (Hrefl : exists more,
    accepted (wr c) = accepted (wr c) ++ more /\ length more <= 2).
  { exists []. rewrite app_nil_r. split; [reflexivity|simpl; lia]. }
  unfold secureWriter_Write; cbv zeta.
  destruct (length p =? 0); [intros E; inversion E; subst; auto|].
  destruct (rand.Read rnd (make noncesz)) as [[[n1 e1] nonce] rnd1].
  destruct e1; [intros E; inversion E; subst; auto|].
  destruct (negb (n1 =? noncesz)); [intros E; inversion E; subst; auto|].
  destruct (io.Write c nonce) as [[n2 e2] c1] eqn:HW1.
  apply Conn_Write_appends in HW1. destruct HW1 as (m1 & HW1 & L1).
  assert (H1 : exists more,
    accepted (wr c1) = accepted (wr c) ++ more /\ length more <= 2)
    by (exists m1; split; [exact HW1|lia]).
  destruct e2; [intros E; inversion E; subst; auto|].
  destruct (negb (n2 =? noncesz)); [intros E; inversion E; subst; auto|].
  destruct (io.Write c1 (box.SealAfterPrecomputation p nonce (sw_key sw)))
    as [[n3 e3] c2] eqn:HW2.
  apply Conn_Write_appends in HW2. destruct HW2 as (m2 & HW2 & L2).
  intros E; inversion E; subst.
  exists (m1 ++ m2). split.
  - rewrite HW2, HW1, app_assoc. reflexivity.
  - rewrite length_app. lia.
Qed.

(** X16. One connection, at most one echo: whatever the client sends and
    however the transport behaves, a run of [handleConnection] makes at
    most three writes on the connection (its public key, one nonce, one
    sealed box); a second frame from the client is never answered. *)
Theorem handleConnection_at_most_one_frame (rnd : Source) (conn : Conn)
    (pri pub : key) :
  exists more,
    accepted (wr (h_conn (handleConnection rnd conn pri pub)))
    = accepted (wr conn) ++ more /\
    length more <= 3.
Proof.
  assert (Hclose : forall (c : Conn) r out s b k,
    (exists more,
       accepted (wr c) = accepted (wr conn) ++ more /\ length more <= k) ->
    k <= 3 ->
    exists more,
      accepted (wr (h_conn (let '(_, c') := io.Close c in
                            mkHandled c' r out s b)))
      = accepted (wr conn) ++ more /\ length more <= 3).
  { intros c r out s b k (more & Hm & Hl) Hk.
    destruct (io.Close c) as [e c'] eqn:HC.
    apply Conn_Close_wr in HC. cbn [h_conn]. rewrite HC.
    exists more. split; [exact Hm|lia]. }
  unfold handleConnection.
  destruct (io.Write conn pub) as [[n e] conn1] eqn:HW.
  apply Conn_Write_appends in HW.
  destruct e; [eapply Hclose; [exact HW|lia]|].
  destruct (negb (n =? keysz)); [eapply Hclose; [exact HW|lia]|].
  cbv zeta.
  destruct (io.Read conn1 (make keysz)) as [[[n1 e1] clipub] conn2] eqn:HR.
  apply Conn_Read_wr in HR. rewrite <- HR in HW.
  destruct e1; [eapply Hclose; [exact HW|lia]|].
  destruct (negb (n1 =? keysz)); [eapply Hclose; [exact HW|lia]|].
  unfold secureReadWriter_Close, secureReadWriter_Read,
    secureReadWriter_Write.
  destruct (secureReader_Read (sr (NewSecureReadWriter pri clipub)) conn2
              (make 2048)) as [[[n2 e2] buf] conn3] eqn:HS.
  apply secureReader_Read_wr in HS. rewrite <- HS in HW.
  destruct (negb (is_nil e2) && negb (is_EOF e2));
    [eapply Hclose; [exact HW|lia]|].
  destruct (slice_to buf n2) as [msg|]; [|eapply Hclose; [exact HW|lia]].
  destruct (secureWriter_Write (sw (NewSecureReadWriter pri clipub)) rnd
              conn3 msg) as [[[n3 e3] rnd3] conn4] eqn:HSW.
  apply secureWriter_Write_appends in HSW.
  destruct HW as (m1 & HW & L1). destruct HSW as (m2 & HSW & L2).
  assert (H4 : exists more,
    accepted (wr conn4) = accepted (wr conn) ++ more /\ length more <= 3).
  { exists (m1 ++ m2). split.
    - rewrite HSW, HW, app_assoc. reflexivity.
    - rewrite length_app. lia. }
  destruct e3; (eapply Hclose; [exact H4|lia]).
Qed.

(** X17. [Dial] sends nothing and draws nothing from [rand.Reader] unless
    the server's public key arrived whole: when its first read returns an
    error or fewer than 32 bytes, the connection's sink and the random
    source are as they were. *)
Theorem Dial_sends_nothing_without_server_key net_Dial (rnd : Source)
    (addr : string) (conn conn1 : Conn) n err srvpub :
  net_Dial addr = inl conn ->
  io.Read conn (make keysz) = (n, err, srvpub, conn1) ->
  err <> None \/ n <> keysz ->
  d_conn (Dial net_Dial rnd addr) = Some conn1 /\
  wr conn1 = wr conn /\
  d_rand (Dial net_Dial rnd addr) = rnd.
Proof.
  intros Hnet HR Hbad.
  pose proof (Conn_Read_wr _ _ _ _ _ _ HR) as Hwr.
  unfold Dial. rewrite Hnet, HR. cbv zeta beta iota.
  destruct err as [e|]; [repeat split; auto|].
  destruct Hbad as [Hbad|Hbad]; [congruence|].
  apply Nat.eqb_neq in Hbad. rewrite Hbad. cbn [negb].
  repeat split; auto.
Qed.

End Properties.

(* ================================================================= *)
(** ** The reference instance keeps the laws of nacl/box *)

Section RefboxLaws.

Import refbox.
Local Open Scope Z_scope.

Lemma Z_of_byte_range (b : byte) : 0 <= Z_of_byte b < 256.
Proof.
  unfold Z_of_byte. pose proof (Byte.to_N_bounded b) as Hb.
  split; [apply N2Z.is_nonneg|].
  apply N.lt_succ_r in Hb. change (N.succ 255) with 256%N in Hb.
  apply N2Z.inj_lt in Hb. exact Hb.
Qed.

Lemma Z_of_byte_of_Z (z : Z) : 0 <= z < 256 -> Z_of_byte (byte_of_Z z) = z.
Proof.
  intros Hz. unfold Z_of_byte, byte_of_Z.
  destruct (Byte.of_N (Z.to_N z)) as [b|] eqn:E.
  - apply Byte.to_of_N in E. rewrite E. apply Z2N.id. lia.
  - apply Byte.of_N_None_iff in E. lia.
Qed.

Lemma le_decode_nonneg (bs : list byte) : 0 <= le_decode bs.
Proof.
  induction bs as [|b bs IH]; cbn [le_decode]; [lia|].
  pose proof (Z_of_byte_range b). lia.
Qed.

Lemma length_le_encode (len : nat) (z : Z) : length (le_encode len z) = len.
Proof.
  revert z. induction len as [|len IH]; intros z; simpl; auto.
Qed.

Lemma le_decode_encode (len : nat) :
  forall z, 0 <= z < 256 ^ Z.of_nat len -> le_decode (le_encode len z) = z.
Proof.
  induction len as [|len IH]; intros z Hz.
  - simpl in *. lia.
  - cbn [le_encode le_decode].
    rewrite Nat2Z.inj_succ, Z.pow_succ_r in Hz by lia.
    rewrite Z_of_byte_of_Z by (apply Z.mod_pos_bound; lia).
    rewrite IH.
    + pose proof (Z.div_mod z 256). lia.
    + split; [apply Z.div_pos; lia|].
      apply Z.div_lt_upper_bound; lia.
Qed.

Lemma P_range : 0 < P < 256 ^ Z.of_nat 32.
Proof. unfold P. split; reflexivity. Qed.

Lemma Zpow_mod_range (a m : Z) : 0 <= Zpow_mod a m P < 256 ^ Z.of_nat 32.
Proof.
  pose proof P_range as HP.
  rewrite Zpow_mod_correct by lia.
  pose proof (Z.mod_pos_bound (a ^ m) P). lia.
Qed.

(** Both parties arrive at [g ^ (a * b) mod P]. *)
Lemma ScalarMult_comm (a b point : key) :
  ScalarMult a (ScalarMult b point) = ScalarMult b (ScalarMult a point).
Proof.
  pose proof P_range as HP.
  unfold ScalarMult. f_equal.
  rewrite !le_decode_encode by apply Zpow_mod_range.
  rewrite !Zpow_mod_correct by lia.
  rewrite <- !Zpower_mod by lia.
  rewrite <- !Z.pow_mul_r by apply le_decode_nonneg.
  f_equal. f_equal. apply Z.mul_comm.
Qed.

Lemma refbox_Precompute_sym (a b : key) :
  Precompute (ScalarBaseMult b) a = Precompute (ScalarBaseMult a) b.
Proof. apply ScalarMult_comm. Qed.

Lemma xor8_involutive (a b : byte) : xor8 (xor8 a b) b = a.
Proof.
  unfold xor8.
  destruct (Byte.to_bits a) as (a0 & a1 & a2 & a3 & a4 & a5 & a6 & a7) eqn:Ea.
  destruct (Byte.to_bits b) as (b0 & b1 & b2 & b3 & b4 & b5 & b6 & b7) eqn:Eb.
  rewrite Byte.to_bits_of_bits.
  rewrite !xorb_assoc, !xorb_nilpotent, !xorb_false_r.
  rewrite <- Ea. apply Byte.of_bits_to_bits.
Qed.

Lemma crypt_involutive (k nonce : list byte) (m : list byte) :
  forall i, crypt k nonce i (crypt k nonce i m) = m.
Proof.
  induction m as [|b m IH]; intros i; simpl; [reflexivity|].
  rewrite xor8_involutive, IH. reflexivity.
Qed.

Lemma length_crypt (k nonce : list byte) (m : list byte) :
  forall i, length (crypt k nonce i m) = length m.
Proof.
  induction m as [|b m IH]; intros i; simpl; auto.
Qed.

Lemma length_mac (k nonce ct : list byte) : length (mac k nonce ct) = 16%nat.
Proof. unfold mac. apply length_le_encode. Qed.

Lemma bytes_eqb_refl (a : list byte) : bytes_eqb a a = true.
Proof.
  induction a as [|x a IH]; simpl; auto.
  rewrite IH, (Byte.byte_dec_lb (eq_refl x)). reflexivity.
Qed.

Lemma refbox_Seal_length (m nonce k : list byte) :
  length (SealAfterPrecomputation m nonce k) = (length m + box.Overhead)%nat.
Proof.
  unfold SealAfterPrecomputation.
  rewrite length_app, length_mac, length_crypt. unfold box.Overhead. lia.
Qed.

Lemma refbox_Open_Seal (m nonce k : list byte) :
  OpenAfterPrecomputation (SealAfterPrecomputation m nonce k) nonce k
  = Some m.
Proof.
  unfold OpenAfterPrecomputation, SealAfterPrecomputation.
  set (ct := crypt k nonce 0 m). set (t := mac k nonce ct).
  assert (Ht : length t = 16%nat) by apply length_mac.
  assert (Hlt : (length (t ++ ct) <? 16)%nat = false).
  { apply Nat.ltb_ge. rewrite length_app. lia. }
  rewrite Hlt.
  assert (Hf : firstn 16 (t ++ ct) = t).
  { rewrite <- Ht, firstn_app, firstn_all, Nat.sub_diag. apply app_nil_r. }
  assert (Hs : skipn 16 (t ++ ct) = ct).
  { rewrite <- Ht, skipn_app, skipn_all, Nat.sub_diag. reflexivity. }
  rewrite Hf, Hs.
  fold t. rewrite bytes_eqb_refl.
  unfold ct. rewrite crypt_involutive. reflexivity.
Qed.

Lemma refbox_Open_length (c nonce k m : list byte) :
  OpenAfterPrecomputation c nonce k = Some m ->
  length c = (length m + box.Overhead)%nat.
Proof.
  unfold OpenAfterPrecomputation.
  destruct (length c <? 16)%nat eqn:Hc; [discriminate|].
  apply Nat.ltb_ge in Hc.
  destruct (bytes_eqb _ _); [|discriminate].
  intros E.
  assert (Hm : m = crypt k nonce 0 (skipn 16 c)) by congruence.
  rewrite Hm.
  rewrite length_crypt, length_skipn. unfold box.Overhead. lia.
Qed.

Lemma refbox_public_keys_are_keysz (priv : key) :
  length (ScalarBaseMult priv) = keysz.
Proof. apply length_le_encode. Qed.

End RefboxLaws.

(* ================================================================= *)
(** ** The theorems at concrete runs *)

Section Runs.

Import run.
#[local] Existing Instance refbox.lib.

(** The round trip of "ping" from Alice to Bob through a pipe. *)
Lemma round_trip_ping :
  exists m err buf' src',
    secureReader_Read bob_reader (pipe (accepted (sent ping))) (make 8)
      = (m, err, buf', src') /\
    m = length ping /\ firstn m buf' = ping /\ (ping <> [] -> err = None).
Proof.
  apply (round_trip (L := refbox.lib) refbox_Seal_length refbox_Precompute_sym
           refbox_Open_Seal alice_priv bob_priv (pipe [nonce0]) []
           [] (sent ping) ping (make 8) 4 (pipe (accepted (sent ping)))).
  - vm_compute. reflexivity.
  - simpl. lia.
  - left. reflexivity.
Defined.

(** Bob is handed a frame with a ten-byte ciphertext: an error, and his
    four-byte buffer is untouched. *)
Lemma decrypt_failure_junk :
  exists e,
    secureReader_Read bob_reader junk_frame (make 4)
    = (10, Some e, make 4, []).
Proof.
  apply (secureReader_Read_decrypt_failure bob_reader junk_frame
           (pipe [repeat x07 10]) [] (make 4) nonce0
           (repeat x07 10 ++ make 10) 10).
  - discriminate.
  - vm_compute. reflexivity.
  - vm_compute. reflexivity.
  - vm_compute. reflexivity.
Defined.

(** An exhausted stream gives [io.EOF]; a stream that ends after ten bytes
    gives another error. *)
Lemma end_of_stream_runs :
  secureReader_Read bob_reader [] (make 4) = (0, Some EOF, make 4, []) /\
  exists e,
    secureReader_Read bob_reader ten_bytes (make 4) = (10, Some e, make 4, [])
    /\ e <> EOF.
Proof.
  split.
  - apply (proj1 (secureReader_Read_end_of_stream bob_reader [] (make 4)
                    ltac:(discriminate)) (make noncesz) []).
    reflexivity.
  - apply (proj2 (secureReader_Read_end_of_stream bob_reader ten_bytes
                    (make 4) ltac:(discriminate))
             10 (Some ErrUnexpectedEOF) (repeat x01 10 ++ make 14) []).
    + vm_compute. reflexivity.
    + unfold noncesz. lia.
Defined.

(** Alice's and Bob's generated key pairs agree on the shared key. *)
Lemma key_symmetry_alice_bob :
  box.Precompute bob_pub alice_priv = box.Precompute alice_pub bob_priv /\
  sr_key (NewSecureReader bob_priv alice_pub)
  = sw_key (NewSecureWriter alice_priv bob_pub).
Proof.
  apply (key_symmetry (L := refbox.lib) refbox_Precompute_sym rand_alice rand_bob [] []).
  - vm_compute. reflexivity.
  - vm_compute. reflexivity.
Defined.

(** Writing "ping" puts one frame of 24 + 20 bytes on the wire. *)
Lemma one_frame_ping :
  exists nonce ciphertext,
    accepted (sent ping) = [] ++ [nonce; ciphertext] /\
    wire (sent ping) = [] ++ nonce ++ ciphertext /\
    length nonce = noncesz /\
    ciphertext = box.SealAfterPrecomputation ping nonce (sw_key alice_writer) /\
    length ciphertext = length ping + box.Overhead /\
    4 = length ping.
Proof.
  apply (proj2 (secureWriter_Write_one_frame (L := refbox.lib)
                  refbox_Seal_length
                  alice_writer (pipe [nonce0]) (mkSink [] []))
           ping 4 [] (sent ping)).
  - discriminate.
  - vm_compute. reflexivity.
Defined.

(** The four short transfers of the handshake, one by one. *)
Lemma handshake_short_runs :
  (d_rwc (Dial (fun _ => inl conn_short_read) rand_alice "srv") = None /\
   d_err (Dial (fun _ => inl conn_short_read) rand_alice "srv") <> None) /\
  (d_rwc (Dial (fun _ => inl conn_short_write) rand_alice "srv") = None /\
   d_err (Dial (fun _ => inl conn_short_write) rand_alice "srv") <> None) /\
  (h_swr (handleConnection [] conn_refusing bob_priv bob_pub) = None /\
   closed (h_conn (handleConnection [] conn_refusing bob_priv bob_pub))
   = true) /\
  (h_swr (handleConnection [] conn_short_read bob_priv bob_pub) = None /\
   closed (h_conn (handleConnection [] conn_short_read bob_priv bob_pub))
   = true).
Proof.
  destruct (handshake_exactness (L := refbox.lib)) as (D1 & D2 & H1 & H2).
  split; [|split; [|split]].
  - apply (D1 (fun _ => inl conn_short_read) rand_alice "srv"%string
             conn_short_read 10 None (repeat x01 10 ++ make 22)
             (mkConn [] (mkSink [] []) false)).
    + reflexivity.
    + vm_compute. reflexivity.
    + unfold keysz. lia.
  - apply (D2 (fun _ => inl conn_short_write) rand_alice "srv"%string
             conn_short_write bob_pub
             (mkConn [] (mkSink [] [Refuse 5 (ErrExternal 2)]) false)
             alice_pub alice_priv [] 5 (Some (ErrExternal 2))
             (mkConn [] (mkSink [firstn 5 alice_pub] []) false)).
    + reflexivity.
    + vm_compute. reflexivity.
    + vm_compute. reflexivity.
    + vm_compute. reflexivity.
    + unfold keysz. lia.
  - apply (H1 [] conn_refusing bob_priv bob_pub 5 (Some (ErrExternal 2))
             (mkConn [] (mkSink [firstn 5 bob_pub] []) false)).
    + vm_compute. reflexivity.
    + unfold keysz. lia.
  - apply (H2 [] conn_short_read bob_priv bob_pub
             (mkConn ten_bytes (mkSink [bob_pub] []) false)
             10 None (repeat x01 10 ++ make 22)
             (mkConn [] (mkSink [bob_pub] []) false)).
    + vm_compute. reflexivity.
    + vm_compute. reflexivity.
    + unfold keysz. lia.
Defined.

(** Two accepted connections are served with the one key pair. *)
Lemma Serve_two_connections :
  Serve rand_alice two_connections
  = (ErrClosed,
     map (fun cr => handleConnection (snd cr) (fst cr) alice_priv alice_pub)
         (pending two_connections)) /\
  forall conn r n conn1,
    In (conn, r) (pending two_connections) ->
    io.Write conn alice_pub = (n, None, conn1) ->
    server_key_sent conn (handleConnection r conn alice_priv alice_pub)
    = Some alice_pub.
Proof.
  apply (Serve_one_key_pair rand_alice [] two_connections alice_pub
           alice_priv).
  vm_compute. reflexivity.
Defined.

(** C2, as the claim states it, fails: both connections of
    [two_connections] are sent the same server public key. *)
Lemma server_key_reused : ~ fresh_server_keys rand_alice two_connections.
Proof.
  intros Hfresh.
  apply (Hfresh 0 1 (conn_silent, []) (conn_silent, [])
           (handleConnection [] conn_silent alice_priv alice_pub)
           (handleConnection [] conn_silent alice_priv alice_pub)).
  - discriminate.
  - reflexivity.
  - reflexivity.
  - vm_compute. reflexivity.
  - vm_compute. reflexivity.
  - reflexivity.
Qed.

(** Bob's successful read of "ping": the whole message, no longer than
    the buffer. *)
Lemma read_success_ping :
  exists nonce r1 enc c m,
    io.ReadFull (pipe (accepted (sent ping))) (make noncesz)
      = (noncesz, None, nonce, r1) /\
    io.Read r1 (make (length (make 8) + box.Overhead))
      = (length c, None, enc, []) /\
    c = firstn (length c) enc /\
    box.OpenAfterPrecomputation c nonce (sr_key bob_reader) = Some m /\
    length m <= length (make 8) /\
    4 = length m /\
    ping ++ make 4 = m ++ skipn (length m) (make 8).
Proof.
  apply (secureReader_Read_success (L := refbox.lib)
           refbox_Open_length bob_reader
           (pipe (accepted (sent ping))) (make 8) 4 (ping ++ make 4) []).
  - discriminate.
  - vm_compute. reflexivity.
Defined.

(** C6, as the claim states it, fails: "hi" read into a one-byte buffer
    is not cut to "h"; the read fails. *)
Lemma overflow_not_discarded :
  ~ discards_overflow alice_priv bob_priv (pipe [nonce0]) hi (make 1).
Proof.
  intros Hd.
  destruct (Hd 2 [] (sent hi)) as [src' E].
  - vm_compute. reflexivity.
  - discriminate.
  - simpl. lia.
  - vm_compute in E. discriminate E.
Qed.

(** C10 at a failing input: a frame with a ten-byte ciphertext read into
    a one-byte buffer; the count returned is 10. *)
Theorem secureReader_Read_count_exceeds_buffer :
  secureReader_Read bob_reader junk_frame (make 1)
  = (10, Some (Errorf "secureReader.Read: Error decrypting data" ArgNone),
     make 1, []) /\
  length (make 1) < 10.
Proof.
  split; [vm_compute; reflexivity|simpl; lia].
Qed.

(** C3 at a failing input: five bytes of plaintext, and a sink that
    takes the nonce and then 16 of the 21 bytes of the sealed box; the
    count returned is 16. *)
Theorem secureWriter_Write_count_includes_overhead :
  let p := ping ++ [x21] in
  let '(n, err, _, w') :=
    secureWriter_Write alice_writer (pipe [nonce0]) short_sink p in
  n = 16 /\ err = Some (ErrExternal 1) /\ length p = 5 /\
  map (@length byte) (accepted w') = [24; 16].
Proof.
  vm_compute. repeat split.
Qed.


(** The further properties at concrete runs. *)

Lemma error_keeps_buffer_junk : make 4 = make 4.
Proof.
  apply (secureReader_Read_error_keeps_buffer (T := Source) bob_reader
           junk_frame (make 4) 10
           (Errorf "secureReader.Read: Error decrypting data" ArgNone)
           (make 4) []).
  vm_compute. reflexivity.
Defined.

Lemma session_ping_hi :
  exists src1,
    secureReader_Read bob_reader (pipe (accepted sent_ping_hi)) (make 8)
    = (length ping, None, ping ++ skipn (length ping) (make 8), src1) /\
    secureReader_Read bob_reader src1 (make 2)
    = (length hi, None, hi ++ skipn (length hi) (make 2), []).
Proof.
  apply (session_of_two_messages (L := refbox.lib) refbox_Seal_length
           refbox_Open_Seal alice_writer bob_reader (pipe [nonce0; nonce1])
           (pipe [nonce1]) [] [] (sent ping) sent_ping_hi ping hi
           (make 8) (make 2) 4 2).
  - vm_compute. reflexivity.
  - discriminate.
  - discriminate.
  - simpl. lia.
  - simpl. lia.
  - vm_compute. reflexivity.
  - vm_compute. reflexivity.
Defined.

Lemma write_twice_ping_hi :
  secureWriter_Write alice_writer (pipe [nonce0; nonce1]) (mkSink [] [])
                     ping
  = (length ping, None, pipe [nonce1],
     mkSink ([] ++ [nonce0;
                    box.SealAfterPrecomputation ping nonce0
                      (sw_key alice_writer)]) []) /\
  secureWriter_Write alice_writer (pipe [nonce1])
    (mkSink ([] ++ [nonce0;
                    box.SealAfterPrecomputation ping nonce0
                      (sw_key alice_writer)]) []) hi
  = (length hi, None, pipe [],
     mkSink ([] ++ [nonce0;
                    box.SealAfterPrecomputation ping nonce0
                      (sw_key alice_writer);
                    nonce1;
                    box.SealAfterPrecomputation hi nonce1
                      (sw_key alice_writer)]) []).
Proof.
  apply (secureWriter_Write_twice (L := refbox.lib) refbox_Seal_length
           alice_writer nonce0 nonce1 [] [] ping hi).
  - reflexivity.
  - reflexivity.
  - discriminate.
  - discriminate.
Defined.

Lemma frame_prefix_short_sink :
  exists nonce k,
    wire short_sent
    = wire short_sink
      ++ firstn k (nonce
                   ++ box.SealAfterPrecomputation (ping ++ [x21]) nonce
                        (sw_key alice_writer)) /\
    (k = 0 \/
     rand.Read (pipe [nonce0]) (make noncesz) = (noncesz, None, nonce, [])).
Proof.
  apply (secureWriter_Write_adds_frame_prefix (L := refbox.lib)
           alice_writer (pipe [nonce0]) [] short_sink short_sent
           (ping ++ [x21]) 16 (Some (ErrExternal 1))).
  vm_compute. reflexivity.
Defined.

Lemma dial_short_read_left_open :
  exists c,
    d_conn (Dial (fun _ => inl conn_short_read) rand_alice "srv") = Some c /\
    closed c = closed conn_short_read /\
    d_out (Dial (fun _ => inl conn_short_read) rand_alice "srv") = [].
Proof.
  apply (Dial_never_closes (L := refbox.lib) (fun _ => inl conn_short_read)
           rand_alice "srv"%string conn_short_read).
  reflexivity.
Defined.

Lemma dial_alice_to_bob :
  Dial (fun _ => inl conn_bob_key) rand_alice "srv"
  = mkDialed (Some (NewSecureReadWriter alice_priv bob_pub)) None
             (Some (mkConn [] (mkSink [alice_pub] []) false)) [] [] /\
  sw_key (sw (NewSecureReadWriter alice_priv bob_pub))
  = box.Precompute bob_pub alice_priv /\
  sr_key (sr (NewSecureReadWriter alice_priv bob_pub))
  = box.Precompute bob_pub alice_priv.
Proof.
  apply (Dial_success (L := refbox.lib) (fun _ => inl conn_bob_key)
           rand_alice [] "srv"%string conn_bob_key
           (mkConn [] (mkSink [] []) false)
           (mkConn [] (mkSink [alice_pub] []) false)
           bob_pub alice_pub alice_priv).
  - reflexivity.
  - vm_compute. reflexivity.
  - vm_compute. reflexivity.
  - vm_compute. reflexivity.
Defined.

Lemma bob_echoes_ping :
  handleConnection (pipe [nonce1]) bob_end bob_priv bob_pub
  = mkHandled (mkConn [] (mkSink ([] ++ to_alice) []) true) [] []
              (Some (NewSecureReadWriter bob_priv alice_pub)) false.
Proof.
  apply (handleConnection_echo (L := refbox.lib) refbox_Seal_length
           refbox_Open_Seal bob_priv bob_pub alice_pub nonce0 nonce1 ping
           [] [] []).
  - vm_compute. reflexivity.
  - vm_compute. reflexivity.
  - reflexivity.
  - reflexivity.
  - discriminate.
  - apply Nat.leb_le. reflexivity.
Defined.

Lemma ping_end_to_end :
  main 8080 ["gochal2"; "-l"; "8080"]%string (fun _ => inl bob_listener)
       (fun _ => inr ErrClosed) (pipe [bob_priv])
  = mkRan (Some (Fatal ErrClosed)) None false None
      [mkHandled (mkConn [] (mkSink to_alice []) true) [] []
                 (Some (NewSecureReadWriter bob_priv alice_pub)) false] /\
  main 0 ["gochal2"; "8080"; "ping"]%string (fun _ => inr ErrClosed)
       (fun _ => inl alice_end) (pipe [alice_priv; nonce0])
  = mkRan None (Some ping) false
      (Some (mkConn [] (mkSink to_bob []) false)) [].
Proof.
  apply (echo_end_to_end (L := refbox.lib) refbox_Seal_length
           refbox_Precompute_sym refbox_Open_Seal bob_priv alice_priv
           nonce0 nonce1 "ping"%string "gochal2"%string "8080"%string
           8080%Z ["gochal2"; "-l"; "8080"]%string ErrClosed
           (fun _ => inl bob_listener) (fun _ => inl alice_end)
           (fun _ => inr ErrClosed) (fun _ => inr ErrClosed)).
  - exact refbox_public_keys_are_keysz.
  - reflexivity.
  - reflexivity.
  - reflexivity.
  - reflexivity.
  - discriminate.
  - apply Nat.leb_le. reflexivity.
  - discriminate.
  - reflexivity.
  - reflexivity.
Defined.

Lemma bob_client_hangs_up :
  handleConnection [] (mkConn [(alice_pub, None)] (mkSink [] []) false)
                   bob_priv bob_pub
  = mkHandled (mkConn [] (mkSink ([] ++ [bob_pub]) []) true) [] []
              (Some (NewSecureReadWriter bob_priv alice_pub)) false.
Proof.
  apply (handleConnection_client_hangs_up (L := refbox.lib) [] bob_priv
           bob_pub alice_pub []).
  - vm_compute. reflexivity.
  - vm_compute. reflexivity.
Defined.

Lemma use_after_close_ping :
  let closed_rwc :=
    snd (secureReadWriter_Close (NewSecureReadWriter alice_priv bob_pub)
                                conn_silent) in
  secureReadWriter_Read (NewSecureReadWriter alice_priv bob_pub)
                        closed_rwc (make 4)
  = (0, Some ErrClosed, make 4, closed_rwc) /\
  exists e rnd',
    secureReadWriter_Write (NewSecureReadWriter alice_priv bob_pub)
                           (pipe [nonce0]) closed_rwc (make 4)
    = (0, Some e, rnd', closed_rwc).
Proof.
  exact (secureReadWriter_use_after_Close (L := refbox.lib)
           (NewSecureReadWriter alice_priv bob_pub) (pipe [nonce0])
           conn_silent (make 4) ltac:(discriminate)).
Defined.


Lemma write_count_bound_short_sink : 16 <= Nat.max (length (ping ++ [x21])) noncesz.
Proof.
  apply (secureWriter_Write_count_bound (L := refbox.lib) refbox_Seal_length
           alice_writer (pipe [nonce0]) [] short_sink short_sent
           (ping ++ [x21]) 16 (Some (ErrExternal 1))).
  vm_compute. reflexivity.
Defined.

Lemma read_count_bound_junk :
  10 <= Nat.max noncesz (length (make 1) + box.Overhead).
Proof.
  apply (secureReader_Read_count_bound (L := refbox.lib) bob_reader
           junk_frame [] (make 1) (make 1) 10
           (Some (Errorf "secureReader.Read: Error decrypting data" ArgNone))).
  vm_compute. reflexivity.
Defined.

Lemma dial_short_read_sends_nothing :
  d_conn (Dial (fun _ => inl conn_short_read) rand_alice "srv")
  = Some (mkConn [] (mkSink [] []) false) /\
  wr (mkConn [] (mkSink [] []) false) = wr conn_short_read /\
  d_rand (Dial (fun _ => inl conn_short_read) rand_alice "srv") = rand_alice.
Proof.
  apply (Dial_sends_nothing_without_server_key (L := refbox.lib)
           (fun _ => inl conn_short_read) rand_alice "srv"%string
           conn_short_read (mkConn [] (mkSink [] []) false) 10 None
           (repeat x01 10 ++ make 22)).
  - reflexivity.
  - vm_compute. reflexivity.
  - right. unfold keysz. lia.
Defined.

End Runs.
